(** * Petri-net playout: resources, classic semantics, batch playout and the
      streaming event generator

    A shallow embedding of [src/generation/constants.py],
    [src/generation/basic_playout.py] and [src/generation/generator_based.py].

    Conventions of the embedding.
    - Python [int] is [Z]; a [datetime] is a [Z] (a point on the time line) and a
      [timedelta] is a [Z] (a signed distance on it).
    - Places and transitions are Python objects compared by identity; the
      embedding identifies such an object with its name (a [string]). A
      resource object is identified by its key in the store of shared objects,
      and its [name] attribute is the field [res_name].
    - A [Marking] is pm4py's [Counter] subclass: a finite map from places to
      integers in which a missing key reads as 0 and is not inserted by a read.
    - A Python set that is only iterated or drawn from is a list in a fixed
      order.
    - [random.choice] reads the next entry of a stream of draws, and
      [datetime.now()] the next entry of a stream of clock readings; both streams
      are inputs of a run.
    - A Python exception is the outcome [Raised]; a loop that has not finished
      within the given number of iterations is the outcome [Timeout]. *)

From Stdlib Require Import ZArith Lia.
From stdpp Require Import gmap strings list fin_maps sorting.

Local Open Scope string_scope.
Local Open Scope list_scope.
Local Open Scope Z_scope.

(** ** Outcomes of effectful code *)

Inductive Result (A : Type) : Type :=
| Done (a : A)
| Raised
| Timeout.

Arguments Done {A} a.
Arguments Raised {A}.
Arguments Timeout {A}.

Global Instance result_ret : MRet Result := fun A a => Done a.

Global Instance result_bind : MBind Result := fun A B k r =>
  match r with
  | Done a => k a
  | Raised => Raised
  | Timeout => Timeout
  end.

Global Instance result_fmap : FMap Result := fun A B f r =>
  match r with
  | Done a => Done (f a)
  | Raised => Raised
  | Timeout => Timeout
  end.

(** ** Resources: [BaseResource] *)

Record BaseResource : Type := mkResource {
  res_name : string;
  capacity : Z;
  available : Z;
  latest_release_time : option Z
}.

(** [BaseResource.__init__]. *)
Definition new_resource (name : string) (c : Z) : BaseResource :=
  {| res_name := name; capacity := c; available := c;
     latest_release_time := None |}.

(** [BaseResource.is_available]. *)
Definition is_available (r : BaseResource) : bool := 0 <? available r.

(** [BaseResource.acquire]: the returned flag and the resource afterwards. *)
Definition acquire (r : BaseResource) : bool * BaseResource :=
  if is_available r
  then (true, {| res_name := res_name r; capacity := capacity r;
                 available := available r - 1;
                 latest_release_time := latest_release_time r |})
  else (false, r).

(** [BaseResource.release]. *)
Definition release (release_time : Z) (r : BaseResource) : BaseResource :=
  {| res_name := res_name r; capacity := capacity r;
     available := available r + 1;
     latest_release_time := Some release_time |}.

(** [RobotArm.__init__]. *)
Definition RobotArm : BaseResource :=
  new_resource "Robot Arm (Welding/Painting)" 1.

(** A call made on a resource by its clients. *)
Inductive res_call : Type :=
| Acquire
| Release (release_time : Z).

(** One call: the resource afterwards, and whether the call was an acquire
    that succeeded. *)
Definition res_step (r : BaseResource) (c : res_call) : BaseResource * bool :=
  match c with
  | Acquire => let '(ok, r') := acquire r in (r', ok)
  | Release t => (release t r, false)
  end.

(** A sequence of calls, in order. *)
Definition run_calls (cs : list res_call) (r : BaseResource) : BaseResource :=
  foldl (fun r c => fst (res_step r c)) r cs.

(** Number of acquires of the sequence that returned [True]. *)
Fixpoint acquired (cs : list res_call) (r : BaseResource) : Z :=
  match cs with
  | [] => 0
  | c :: cs' =>
      let '(r', ok) := res_step r c in
      (if ok then 1 else 0) + acquired cs' r'
  end.

(** Number of releases of the sequence. *)
Fixpoint released (cs : list res_call) : Z :=
  match cs with
  | [] => 0
  | Acquire :: cs' => released cs'
  | Release _ :: cs' => 1 + released cs'
  end.

(** The shared resource objects of a simulation, by identity. *)
Abbreviation Store := (gmap string BaseResource).

(** ** The net model *)

Abbreviation Marking := (gmap string Z).

(** [m[p]] on a [Counter]: a missing key reads as 0. *)
Definition count (m : Marking) (p : string) : Z := default 0 (m !! p).

(** [m[p] = v]. *)
Definition set_count (m : Marking) (p : string) (v : Z) : Marking :=
  <[p := v]> m.

(** [del m[p]]. *)
Definition del_count (m : Marking) (p : string) : Marking :=
  delete p m.

(** [PetriNet.Arc]: endpoints by name. *)
Record Arc : Type := mkArc {
  source : string;
  target : string;
  weight : Z
}.

(** The firing callback of a transition, called with the marking reached, the
    case id and the transition (here its name); its effect is on the shared
    resources. *)
Definition Callback : Type := Marking -> Z -> string -> Store -> Store.

(** [SimPetriNet.SimTransition]. *)
Record SimTransition : Type := mkTransition {
  name : string;
  label : option string;
  duration : Z;
  attributes : list (string * string);
  resources : list string;
  on_fire_callback : option Callback;
  in_arcs : list Arc;
  out_arcs : list Arc
}.

(** [SimPetriNet]. *)
Record SimPetriNet : Type := mkNet {
  net_name : string;
  places : list string;
  transitions : list SimTransition;
  arcs : list Arc
}.

(** [t in pn.transitions]. *)
Definition transition_in (t : SimTransition) (pn : SimPetriNet) : bool :=
  bool_decide (name t ∈ (name <$> transitions pn)).

(** [SimTransition.all_resources_available]; a resource the store does not
    hold has no Python counterpart and reads as unavailable. *)
Definition all_resources_available (t : SimTransition) (st : Store) : bool :=
  forallb (fun r => match st !! r with
                    | Some res => is_available res
                    | None => false
                    end) (resources t).

(** ** [ClassicPetriNetSemantics] *)

(** [is_enabled]. *)
Definition is_enabled (t : SimTransition) (pn : SimPetriNet) (m : Marking) : bool :=
  if transition_in t pn
  then forallb (fun a => negb (count m (source a) <? weight a)) (in_arcs t)
  else false.

(** Body of the first loop of [execute]. *)
Definition consume (m_out : Marking) (a : Arc) : Marking :=
  let m1 := set_count m_out (source a) (count m_out (source a) - weight a) in
  if count m1 (source a) =? 0 then del_count m1 (source a) else m1.

(** Body of the first loop of [weak_execute]. *)
Definition weak_consume (m_out : Marking) (a : Arc) : Marking :=
  let m1 := set_count m_out (source a) (count m_out (source a) - weight a) in
  if count m1 (source a) <=? 0 then del_count m1 (source a) else m1.

(** Body of the second loop of [execute] and of [weak_execute]. *)
Definition produce (m_out : Marking) (a : Arc) : Marking :=
  set_count m_out (target a) (count m_out (target a) + weight a).

(** [execute]: [None] is Python's [None]. *)
Definition execute (t : SimTransition) (pn : SimPetriNet) (m : Marking)
  : option Marking :=
  if negb (is_enabled t pn m) then None
  else
    let m_out := m in
    let m_out := foldl consume m_out (in_arcs t) in
    let m_out := foldl produce m_out (out_arcs t) in
    Some m_out.

(** [weak_execute]. *)
Definition weak_execute (t : SimTransition) (pn : SimPetriNet) (m : Marking)
  : Marking :=
  let m_out := m in
  let m_out := foldl weak_consume m_out (in_arcs t) in
  let m_out := foldl produce m_out (out_arcs t) in
  m_out.

(** [enabled_transitions]. *)
Definition enabled_transitions (pn : SimPetriNet) (m : Marking)
  : list SimTransition :=
  filter (fun t => is_enabled t pn m = true) (transitions pn).

(** ** Comparison of markings *)

(** Modelled from the spec: pm4py's [Marking.__eq__], which is not under src/.
    Two markings are equal when their counts match on every place present in
    either, an absent place counting as 0. *)
Definition marking_eq (m1 m2 : Marking) : bool :=
  forallb (fun p => count m1 p =? count m2 p)
          (elements (dom m1 ∪ dom m2 : gset string)).

(** Modelled from the spec: pm4py's [Marking.__le__], which is not under src/.
    [m1 <= m2] when on every place the count of [m1] is at most that of [m2],
    an absent place counting as 0. *)
Definition marking_le (m1 m2 : Marking) : bool :=
  forallb (fun p => count m1 p <=? count m2 p)
          (elements (dom m1 ∪ dom m2 : gset string)).

(** [final_marking == marking] for an optional final marking: with [None] on
    the left Python falls back to [Marking.__eq__(marking, None)], which reads
    [None.keys()] and raises. *)
Definition py_eq (final_marking : option Marking) (marking : Marking) : Result bool :=
  match final_marking with
  | Some f => Done (marking_eq f marking)
  | None => Raised
  end.

(** [final_marking <= marking] for an optional final marking: [None] is not
    ordered against a [Marking] and Python raises. *)
Definition py_le (final_marking : option Marking) (marking : Marking) : Result bool :=
  match final_marking with
  | Some f => Done (marking_le f marking)
  | None => Raised
  end.

(** ** Random choice *)

(** [random.choice(xs)] with the draw [d]: an element of [xs], [IndexError] on
    an empty list. *)
Definition choice {A : Type} (xs : list A) (d : nat) : Result A :=
  match xs !! (d mod length xs)%nat with
  | Some x => Done x
  | None => Raised
  end.

(** [set.union({None})] of a set of transitions, then [list(...)]. *)
Definition with_stop (ts : list SimTransition) : list (option SimTransition) :=
  (Some <$> ts) ++ [None].

(** The test shared by [select_transition] and [_fire_transition]. *)
Definition may_stop (final_marking : option Marking) (marking : Marking)
    (fm_leq_accepted : bool) : bool :=
  match final_marking with
  | Some f => marking_le f marking && (marking_eq f marking || fm_leq_accepted)
  | None => false
  end.

(** ** Batch playout ([basic_playout.py]) *)

(** [select_transition]: [Done None] is the synthetic stop option. *)
Definition select_transition (all_enabled_trans : list SimTransition)
    (final_marking : option Marking) (marking : Marking)
    (fm_leq_accepted : bool) (d : nat) : Result (option SimTransition) :=
  if may_stop final_marking marking fm_leq_accepted
  then choice (with_stop all_enabled_trans) d
  else choice (Some <$> all_enabled_trans) d.

(** What [execute_single_trace] appends to [visited_elements]. *)
Inductive Visited : Type :=
| VMarking (m : Marking)
| VTrans (t : SimTransition).

(** The [while] loop of [execute_single_trace], run with the classic
    semantics; one unit of fuel per iteration. [cur] is the position in the
    stream of draws. When [execute]
    returns [None] Python binds it as the marking and fails on its next use;
    the transition fired here is one of the enabled ones, for which [execute]
    never returns [None]. *)
Fixpoint trace_loop (fuel : nat) (net : SimPetriNet) (max_trace_length : Z)
    (final_marking : option Marking) (fm_leq_accepted : bool)
    (draws : nat -> nat)
    (visited_elements : list Visited)
    (visible_transitions_visited : list SimTransition)
    (marking : Marking) (cur : nat)
  : Result (list Visited * Marking * nat) :=
  match fuel with
  | O => Timeout
  | S fuel' =>
      if Z.of_nat (length visible_transitions_visited) <? max_trace_length then
        let visited_elements := visited_elements ++ [VMarking marking] in
        match enabled_transitions net marking with
        | [] => Done (visited_elements, marking, cur)
        | _ :: _ =>
            let all_enabled_trans := enabled_transitions net marking in
            trans ← select_transition all_enabled_trans final_marking marking
                      fm_leq_accepted (draws cur);
            match trans with
            | None => Done (visited_elements, marking, S cur)
            | Some t =>
                let visited_elements := visited_elements ++ [VTrans t] in
                let visible_transitions_visited :=
                  match label t with
                  | Some _ => visible_transitions_visited ++ [t]
                  | None => visible_transitions_visited
                  end in
                match execute t net marking with
                | Some marking' =>
                    trace_loop fuel' net max_trace_length final_marking
                      fm_leq_accepted draws visited_elements
                      visible_transitions_visited marking' (S cur)
                | None => Raised
                end
            end
        end
      else Done (visited_elements, marking, cur)
  end.

(** [execute_single_trace]. *)
Definition execute_single_trace (fuel : nat) (net : SimPetriNet)
    (initial_marking : Marking) (max_trace_length : Z)
    (final_marking : option Marking) (fm_leq_accepted : bool)
    (draws : nat -> nat) (cur : nat)
  : Result (list Visited * Marking * nat) :=
  trace_loop fuel net max_trace_length final_marking fm_leq_accepted draws
    [] [] initial_marking cur.

(** [should_add_trace]. *)
Definition should_add_trace (marking : Marking) (final_marking : option Marking)
    (add_only_if_fm_is_reached fm_leq_accepted : bool) : Result bool :=
  if negb add_only_if_fm_is_reached then Done true
  else
    e ← py_eq final_marking marking;
    if (e : bool) then Done true
    else
      l ← py_le final_marking marking;
      Done ((l : bool) && fm_leq_accepted).

(** An event of a batch log. *)
Record LogEvent : Type := mkLogEvent {
  log_activity : string;
  log_timestamp : Z
}.

(** A trace of a batch log: its case id and its events. *)
Record Trace : Type := mkTrace {
  trace_case_id : Z;
  trace_events : list LogEvent
}.

Definition EventLog : Type := list Trace.

(** The inner loop of [convert_to_event_log]: the events of one trace and the
    timestamp cursor afterwards. *)
Fixpoint convert_trace (visited_elements : list Visited) (curr_timestamp : Z)
  : list LogEvent * Z :=
  match visited_elements with
  | [] => ([], curr_timestamp)
  | VTrans element :: rest =>
      match label element with
      | Some l =>
          let new_timestamp := curr_timestamp + duration element in
          let '(evs, ts) := convert_trace rest new_timestamp in
          (mkLogEvent l new_timestamp :: evs, ts)
      | None => convert_trace rest curr_timestamp
      end
  | VMarking _ :: rest => convert_trace rest curr_timestamp
  end.

(** The outer loop of [convert_to_event_log], from position [index]. *)
Fixpoint convert_traces (visited_elements_list : list (list Visited))
    (index : Z) (initial_case_id : Z) (curr_timestamp : Z) : EventLog :=
  match visited_elements_list with
  | [] => []
  | visited_elements :: rest =>
      let '(evs, ts) := convert_trace visited_elements curr_timestamp in
      mkTrace (index + initial_case_id) evs
        :: convert_traces rest (index + 1) initial_case_id ts
  end.

(** [convert_to_event_log]. *)
Definition convert_to_event_log (visited_elements_list : list (list Visited))
    (initial_timestamp : Z) (initial_case_id : Z) : EventLog :=
  convert_traces visited_elements_list 0 initial_case_id initial_timestamp.

(** The configuration of a playout. *)
Record PlayoutConfig : Type := mkPlayoutConfig {
  no_traces : Z;
  cfg_max_trace_length : Z;
  initial_timestamp : Z;
  initial_case_id : Z;
  cfg_final_marking : option Marking;
  cfg_add_only_if_fm_is_reached : bool;
  cfg_fm_leq_accepted : bool
}.

(** The [while True] loop of [playout_algorithm]; [fuel] bounds its
    iterations and [tfuel] those of each single trace. The result carries the
    number of attempts made. *)
Fixpoint playout_loop (fuel tfuel : nat) (net : SimPetriNet)
    (initial_marking : Marking) (cfg : PlayoutConfig) (draws : nat -> nat)
    (all_visited_elements : list (list Visited)) (i : Z) (cur : nat)
  : Result (list (list Visited) * Z) :=
  match fuel with
  | O => Timeout
  | S fuel' =>
      if no_traces cfg <=? Z.of_nat (length all_visited_elements)
      then Done (all_visited_elements, i)
      else if (no_traces cfg <=? i)
                && (negb (cfg_add_only_if_fm_is_reached cfg)
                    || (Z.of_nat (length all_visited_elements) =? 0))
      then Done (all_visited_elements, i)
      else
        '(visited_elements, marking, cur') ←
          execute_single_trace tfuel net initial_marking
            (cfg_max_trace_length cfg) (cfg_final_marking cfg)
            (cfg_fm_leq_accepted cfg) draws cur;
        add ← should_add_trace marking (cfg_final_marking cfg)
                (cfg_add_only_if_fm_is_reached cfg) (cfg_fm_leq_accepted cfg);
        let all_visited_elements :=
          if (add : bool) then all_visited_elements ++ [visited_elements]
          else all_visited_elements in
        playout_loop fuel' tfuel net initial_marking cfg draws
          all_visited_elements (i + 1) cur'
  end.

(** [playout_algorithm]. *)
Definition playout_algorithm (fuel tfuel : nat) (net : SimPetriNet)
    (initial_marking : Marking) (cfg : PlayoutConfig) (draws : nat -> nat)
  : Result EventLog :=
  '(all_visited_elements, _) ←
    playout_loop fuel tfuel net initial_marking cfg draws [] 0 0%nat;
  Done (convert_to_event_log all_visited_elements
          (initial_timestamp cfg) (initial_case_id cfg)).

(** ** The streaming generator ([generator_based.py]) *)

(** An event as [_create_event] builds it: the case id is the pair of the
    generator's prefix and the case number, which the source joins with an
    underscore. *)
Record Event : Type := mkEvent {
  ev_activity : string;
  ev_timestamp : Z;
  ev_case_prefix : string;
  ev_case_number : Z;
  ev_attributes : list (string * string)
}.

(** [PetriNetEventGenerator]: its configuration and the state of the current
    trace. *)
Record Generator : Type := mkGenerator {
  net : SimPetriNet;
  initial_marking : Marking;
  final_marking : option Marking;
  max_trace_length : Z;
  current_case_id : Z;
  current_timestamp : Z;
  add_only_if_fm_is_reached : bool;
  fm_leq_accepted : bool;
  UNIQUE_ID_PREFIX : string;
  current_marking : Marking;
  visible_transitions_count : Z
}.

(** What a generator shares with its surroundings: the resource objects, and
    how far the streams of draws and of clock readings have been read. *)
Record World : Type := mkWorld {
  store : Store;
  rng : nat;
  clk : nat
}.

Definition set_trace_state (g : Generator) (case_id timestamp : Z)
    (marking : Marking) (visible : Z) : Generator :=
  {| net := net g; initial_marking := initial_marking g;
     final_marking := final_marking g;
     max_trace_length := max_trace_length g;
     current_case_id := case_id; current_timestamp := timestamp;
     add_only_if_fm_is_reached := add_only_if_fm_is_reached g;
     fm_leq_accepted := fm_leq_accepted g;
     UNIQUE_ID_PREFIX := UNIQUE_ID_PREFIX g;
     current_marking := marking; visible_transitions_count := visible |}.

(** [_get_current_state]. *)
Definition _get_current_state (g : Generator) : Marking * Z :=
  (current_marking g, current_case_id g).

(** [_initialize_trace]. *)
Definition _initialize_trace (g : Generator) : Generator :=
  set_trace_state g (current_case_id g) (current_timestamp g)
    (initial_marking g) 0.

(** [__init__]: the prefix is the generator's fresh uuid, and the clock is read
    when no initial timestamp is given. *)
Definition new_generator (pn : SimPetriNet) (im : Marking)
    (fm : option Marking) (mtl : Z) (case_id : Z) (init_ts : option Z)
    (add_only leq : bool) (prefix : string) (clock : nat -> Z) (w : World)
  : Generator * World :=
  let '(ts, w') :=
    match init_ts with
    | Some t => (t, w)
    | None => (clock (clk w), mkWorld (store w) (rng w) (S (clk w)))
    end in
  (_initialize_trace
     {| net := pn; initial_marking := im; final_marking := fm;
        max_trace_length := mtl; current_case_id := case_id;
        current_timestamp := ts; add_only_if_fm_is_reached := add_only;
        fm_leq_accepted := leq; UNIQUE_ID_PREFIX := prefix;
        current_marking := im; visible_transitions_count := 0 |}, w').

(** [_is_trace_acceptable]. *)
Definition _is_trace_acceptable (g : Generator) (marking : Marking) : Result bool :=
  if negb (add_only_if_fm_is_reached g) then Done true
  else
    e ← py_eq (final_marking g) marking;
    if (e : bool) then Done true
    else
      match final_marking g with
      | Some f => Done (marking_le f marking && fm_leq_accepted g)
      | None => Done false
      end.

(** [_fire_transition]: [Done None] is the synthetic stop option. *)
Definition _fire_transition (g : Generator)
    (enabled : list SimTransition) (d : nat) : Result (option SimTransition) :=
  if may_stop (final_marking g) (current_marking g) (fm_leq_accepted g)
  then choice (with_stop enabled) d
  else choice (Some <$> enabled) d.

(** [_should_start_new_trace]. *)
Definition _should_start_new_trace (g : Generator) : bool :=
  (max_trace_length g <=? visible_transitions_count g)
  || match enabled_transitions (net g) (current_marking g) with
     | [] => true
     | _ :: _ => false
     end.

(** [_handle_invalid_trace]: the flag returned, and the state afterwards. *)
Definition _handle_invalid_trace (clock : nat -> Z) (g : Generator) (w : World)
  : Result (bool * Generator * World) :=
  ok ← _is_trace_acceptable g (current_marking g);
  if (ok : bool) then Done (false, g, w)
  else
    let g1 := _initialize_trace g in
    Done (true,
          set_trace_state g1 (current_case_id g1) (clock (clk w))
            (current_marking g1) (visible_transitions_count g1),
          mkWorld (store w) (rng w) (S (clk w))).

(** [_start_new_trace]. *)
Definition _start_new_trace (g : Generator) : Generator :=
  _initialize_trace
    (set_trace_state g (current_case_id g + 1) (current_timestamp g)
       (current_marking g) (visible_transitions_count g)).

(** [_handle_enabled_transition]. *)
Definition _handle_enabled_transition (g : Generator) : list SimTransition :=
  enabled_transitions (net g) (current_marking g).

(** [_create_event], for a transition whose label is [l]. *)
Definition _create_event (g : Generator) (trans : SimTransition) (l : string)
  : Event * Generator :=
  let g1 := set_trace_state g (current_case_id g)
              (current_timestamp g + duration trans) (current_marking g)
              (visible_transitions_count g + 1) in
  (mkEvent l (current_timestamp g1) (UNIQUE_ID_PREFIX g1) (current_case_id g1)
     ((fun kv : string * string => ("attr:" +:+ kv.1, kv.2)) <$> attributes trans),
   g1).

(** [_execute_transition]: the event returned, if any, and the state
    afterwards. A [None] from [execute] would be stored as the current marking
    by the source; the embedding stops there with [Raised], and the callers
    only pass transitions that are enabled, for which [execute] returns a
    marking. *)
Definition _execute_transition (g : Generator) (w : World)
    (trans : option SimTransition) : Result (option Event * Generator * World) :=
  match trans with
  | None => Done (None, _start_new_trace g, w)
  | Some t =>
      if negb (all_resources_available t (store w)) then Done (None, g, w)
      else
        match execute t (net g) (current_marking g) with
        | None => Raised
        | Some m' =>
            let g1 := set_trace_state g (current_case_id g)
                        (current_timestamp g) m'
                        (visible_transitions_count g) in
            let w1 :=
              match on_fire_callback t with
              | Some cb =>
                  mkWorld (cb (current_marking g1) (current_case_id g1)
                             (name t) (store w))
                          (rng w) (clk w)
              | None => w
              end in
            match label t with
            | Some l =>
                let '(e, g2) := _create_event g1 t l in
                Done (Some e, g2, w1)
            | None => Done (None, g1, w1)
            end
        end
  end.

(** One iteration of the [while True] loop of [__next__]: [Some e] when the
    iteration returns the event [e], [None] when the loop goes round again. *)
Definition next_iteration (draws : nat -> nat) (clock : nat -> Z)
    (g : Generator) (w : World) : Result (option Event * Generator * World) :=
  '(again, g, w) ←
    (if _should_start_new_trace g then
       '(invalid, g1, w1) ← _handle_invalid_trace clock g w;
       if (invalid : bool) then Done (true, g1, w1)
       else Done (false, _start_new_trace g1, w1)
     else Done (false, g, w));
  if (again : bool) then Done (None, g, w)
  else
    let enabled_transitions := _handle_enabled_transition g in
    match enabled_transitions with
    | [] => Done (None, _start_new_trace g, w)
    | _ :: _ =>
        current_transition ←
          _fire_transition g enabled_transitions (draws (rng w));
        _execute_transition g (mkWorld (store w) (S (rng w)) (clk w))
          current_transition
    end.

(** [__next__]: one unit of fuel per iteration of its loop. *)
Fixpoint next (fuel : nat) (draws : nat -> nat) (clock : nat -> Z)
    (g : Generator) (w : World) : Result (Event * Generator * World) :=
  match fuel with
  | O => Timeout
  | S fuel' =>
      '(event_yield, g', w') ← next_iteration draws clock g w;
      match event_yield with
      | Some e => Done (e, g', w')
      | None => next fuel' draws clock g' w'
      end
  end.

(** The first [n] events of the generator, as a consumer iterating over it
    collects them ([NetSimulator._simulate_process]). *)
Fixpoint generate (fuel : nat) (n : nat) (draws : nat -> nat) (clock : nat -> Z)
    (g : Generator) (w : World) : Result (list Event) :=
  match n with
  | O => Done []
  | S n' =>
      '(e, g', w') ← next fuel draws clock g w;
      es ← generate fuel n' draws clock g' w';
      Done (e :: es)
  end.

(** The part of an event that does not mention time or the generator's
    prefix. *)
Definition event_core (e : Event) : string * Z * list (string * string) :=
  (ev_activity e, ev_case_number e, ev_attributes e).

(** ** Pointwise description of a firing *)

(** Total weight of the arcs of [as_] whose end selected by [endp] is [p]. *)
Definition arc_weight_at (endp : Arc -> string) (as_ : list Arc) (p : string) : Z :=
  foldr (fun a acc => if decide (endp a = p) then weight a + acc else acc) 0 as_.

(** A count as a [Counter] stores it after the first loop of [execute]: a
    count of 0 is not stored. *)
Definition nonzero (z : Z) : option Z := if z =? 0 then None else Some z.

(** The entry for place [p] of the marking reached by firing [t] from [m],
    following the wording of the specification: the weights of the incoming
    arcs from [p] are subtracted, a place emptied to exactly 0 is dropped, and
    the weights of the outgoing arcs to [p] are added. *)
Definition fired_entry (t : SimTransition) (m : Marking) (p : string) : option Z :=
  let after_in := count m p - arc_weight_at source (in_arcs t) p in
  if bool_decide (p ∈ (target <$> out_arcs t))
  then Some (after_in + arc_weight_at target (out_arcs t) p)
  else if bool_decide (p ∈ (source <$> in_arcs t))
  then nonzero after_in
  else m !! p.

(** The condition under which the stop option is offered, as the
    specification words it. *)
Definition stop_offered (final_marking : option Marking) (marking : Marking)
    (fm_leq_accepted : bool) : Prop :=
  exists f, final_marking = Some f /\ marking_le f marking = true /\
            (marking_eq f marking = true \/ fm_leq_accepted = true).

(** The values a draw may select: a transition of [ts], or the stop option when
    it is offered. *)
Definition candidate (ts : list SimTransition) (final_marking : option Marking)
    (marking : Marking) (fm_leq_accepted : bool)
    (x : option SimTransition) : Prop :=
  match x with
  | Some t => t ∈ ts
  | None => stop_offered final_marking marking fm_leq_accepted
  end.

(** ** Relating two runs *)

(** A generator with its clock-dependent and uuid-dependent fields blanked. *)
Definition forget_time (g : Generator) : Generator :=
  {| net := net g; initial_marking := initial_marking g;
     final_marking := final_marking g;
     max_trace_length := max_trace_length g;
     current_case_id := current_case_id g; current_timestamp := 0;
     add_only_if_fm_is_reached := add_only_if_fm_is_reached g;
     fm_leq_accepted := fm_leq_accepted g;
     UNIQUE_ID_PREFIX := "";
     current_marking := current_marking g;
     visible_transitions_count := visible_transitions_count g |}.

(** Two generator states that differ at most in timestamp, prefix and clock
    position. *)
Definition same_but_time (s1 s2 : Generator * World) : Prop :=
  forget_time s1.1 = forget_time s2.1 /\
  store s1.2 = store s2.2 /\ rng s1.2 = rng s2.2.

(** What is left of the result of one iteration of [__next__], and of
    [__next__] itself, once time and prefix are blanked. *)
Definition blank_iteration (r : option Event * Generator * World)
  : option (string * Z * list (string * string)) * Generator * Store * nat :=
  let '(e, g, w) := r in (event_core <$> e, forget_time g, store w, rng w).

Definition blank_next (r : Event * Generator * World)
  : (string * Z * list (string * string)) * Generator * Store * nat :=
  let '(e, g, w) := r in (event_core e, forget_time g, store w, rng w).

Definition const_clock (t : Z) : nat -> Z := fun _ => t.

(** ** Example nets *)

(** The two-place net of the specification's scenario: P1 -> T -> P2, with [T]
    labelled "A" and lasting 10 time units. *)
Definition T_A : SimTransition :=
  mkTransition "T" (Some "A") 10 [] [] None
    [mkArc "P1" "T" 1] [mkArc "T" "P2" 1].

Definition line_net : SimPetriNet :=
  mkNet "line" ["P1"; "P2"] [T_A]
    [mkArc "P1" "T" 1; mkArc "T" "P2" 1].

Definition m_P1 : Marking := {[ "P1" := 1 ]}.
Definition m_P2 : Marking := {[ "P2" := 1 ]}.
Definition m_P3 : Marking := {[ "P3" := 1 ]}.

(** A transition that consumes its only input token and produces nothing. *)
Definition T_sink : SimTransition :=
  mkTransition "S" (Some "sink") 1 [] [] None [mkArc "P1" "S" 1] [].

Definition sink_net : SimPetriNet :=
  mkNet "sink" ["P1"] [T_sink] [mkArc "P1" "S" 1].

(** A transition with two parallel arcs from the same place, as two calls of
    [add_sim_arc_from_to] on the same pair build it. *)
Definition T_double : SimTransition :=
  mkTransition "D" (Some "double") 1 [] [] None
    [mkArc "P1" "D" 1; mkArc "P1" "D" 1] [].

Definition double_net : SimPetriNet :=
  mkNet "double" ["P1"] [T_double] [mkArc "P1" "D" 1; mkArc "P1" "D" 1].

(** The scenario's transition requiring a resource. *)
Definition T_robot : SimTransition :=
  mkTransition "T" (Some "A") 10 [] ["robot"] None
    [mkArc "P1" "T" 1] [mkArc "T" "P2" 1].

Definition robot_net : SimPetriNet :=
  mkNet "robot" ["P1"; "P2"] [T_robot]
    [mkArc "P1" "T" 1; mkArc "T" "P2" 1].

Definition exhausted_store : Store := {[ "robot" := new_resource "robot" 0 ]}.

(** A playout of the scenario net asking for the final marking P3, which no
    firing reaches. *)
Definition unreachable_cfg (n : Z) : PlayoutConfig :=
  mkPlayoutConfig n 100 0 0 (Some m_P3) true false.

(** A playout of the scenario net asking for the final marking P2, which the
    firing of its transition reaches. *)
Definition reachable_cfg (n : Z) : PlayoutConfig :=
  mkPlayoutConfig n 100 0 0 (Some m_P2) true false.

(** A playout configuration with the number of requested traces replaced. *)
Definition with_no_traces (cfg : PlayoutConfig) (n : Z) : PlayoutConfig :=
  mkPlayoutConfig n (cfg_max_trace_length cfg) (initial_timestamp cfg)
    (initial_case_id cfg) (cfg_final_marking cfg)
    (cfg_add_only_if_fm_is_reached cfg) (cfg_fm_leq_accepted cfg).

(** A generator on the scenario net that only accepts traces ending in the
    marking P3. *)
Definition strict_generator (prefix : string) : Generator :=
  mkGenerator line_net m_P1 (Some m_P3) 100 0 0 true false prefix m_P1 0.

Definition zero_draws : nat -> nat := fun _ => 0%nat.

(** A net that can go round for ever: P1 -> L -> P1. *)
Definition T_loop : SimTransition :=
  mkTransition "L" (Some "again") 5 [] [] None
    [mkArc "P1" "L" 1] [mkArc "L" "P1" 1].

Definition loop_net : SimPetriNet :=
  mkNet "loop" ["P1"] [T_loop] [mkArc "P1" "L" 1; mkArc "L" "P1" 1].

Definition one_draws : nat -> nat := fun _ => 1%nat.

Definition empty_world : World := mkWorld ∅ 0 0.

(** ** Reading a batch trace back *)

(** The transitions of a visited sequence, in firing order. *)
Fixpoint fired (visited_elements : list Visited) : list SimTransition :=
  match visited_elements with
  | [] => []
  | VTrans t :: rest => t :: fired rest
  | VMarking _ :: rest => fired rest
  end.

(** The labels of the visible transitions of a sequence, in order. *)
Definition labels (ts : list SimTransition) : list string := omap label ts.

(** Firing a sequence of transitions one after the other. *)
Fixpoint replay (pn : SimPetriNet) (ts : list SimTransition) (m : Marking)
  : option Marking :=
  match ts with
  | [] => Some m
  | t :: ts' =>
      match execute t pn m with
      | Some m' => replay pn ts' m'
      | None => None
      end
  end.

(** All the timestamps of a log, in the order the log lists them. *)
Definition log_timestamps (log : EventLog) : list Z :=
  concat ((fun tr => log_timestamp <$> trace_events tr) <$> log).

(** ** The configuration of a generator *)

(** What [__init__] fixes and no method assigns. *)
Definition config (g : Generator)
  : SimPetriNet * Marking * option Marking * Z * bool * bool * string :=
  (net g, initial_marking g, final_marking g, max_trace_length g,
   add_only_if_fm_is_reached g, fm_leq_accepted g, UNIQUE_ID_PREFIX g).

(** The attribute entries of an event, as [_create_event] names them. *)
Definition event_attributes (t : SimTransition) : list (string * string) :=
  (fun kv : string * string => ("attr:" +:+ kv.1, kv.2)) <$> attributes t.

(** What an event returned by the generator says about the transition [t]
    that produced it and the state [g] the generator is left in. *)
Definition event_of (ev : Event) (t : SimTransition) (g : Generator) : Prop :=
  label t = Some (ev_activity ev) /\
  ev_attributes ev = event_attributes t /\
  ev_case_number ev = current_case_id g /\
  ev_timestamp ev = current_timestamp g /\
  ev_case_prefix ev = UNIQUE_ID_PREFIX g.

(** ** Consumers of the generator *)

(** The loop of [NetSimulator._simulate_process]: [n] bounds the events
    taken from the generator and [fuel] the iterations of each [__next__]. *)
Fixpoint simulate_process_loop (fuel n : nat) (draws : nat -> nat)
    (clock : nat -> Z) (g : Generator) (w : World)
    (process_event_log : list Event) (max_traces : Z) : Result (list Event) :=
  match n with
  | O => Timeout
  | S n' =>
      '(event, g', w') ← next fuel draws clock g w;
      let process_event_log := process_event_log ++ [event] in
      if max_traces <=? Z.of_nat (length process_event_log)
      then Done process_event_log
      else simulate_process_loop fuel n' draws clock g' w'
             process_event_log max_traces
  end.

(** [NetSimulator._simulate_process]: the generator is built with the
    defaults of [PetriNetEventGenerator.__init__]. *)
Definition _simulate_process (fuel n : nat) (pn : SimPetriNet) (im : Marking)
    (fm : option Marking) (max_traces : Z) (prefix : string)
    (draws : nat -> nat) (clock : nat -> Z) (w : World) : Result (list Event) :=
  let '(g, w0) :=
    new_generator pn im fm 10000 0 None false false prefix clock w in
  simulate_process_loop fuel n draws clock g w0 [] max_traces.

(** An event after [ProcessAgent.execute_next_transition] has added the
    agent's id to it. *)
Record AgentEvent : Type := mkAgentEvent {
  base_event : Event;
  ev_agent_id : string
}.

(** [ProcessAgent]. *)
Record ProcessAgent : Type := mkAgent {
  agent_id : string;
  petri_net : SimPetriNet;
  agent_initial_marking : Marking;
  agent_final_marking : option Marking;
  event_log : list AgentEvent;
  generator : option Generator
}.

(** [ProcessAgent.__init__]. *)
Definition new_agent (id : string) (pn : SimPetriNet) (im : Marking)
    (fm : option Marking) : ProcessAgent :=
  mkAgent id pn im fm [] None.

(** [ProcessAgent.initialize_generator]; [prefix] is the uuid the new
    generator draws. *)
Definition initialize_generator (a : ProcessAgent) (prefix : string)
    (clock : nat -> Z) (w : World) : ProcessAgent * World :=
  let '(g, w') :=
    new_generator (petri_net a) (agent_initial_marking a)
      (agent_final_marking a) 10000 0 None false false prefix clock w in
  (mkAgent (agent_id a) (petri_net a) (agent_initial_marking a)
     (agent_final_marking a) (event_log a) (Some g), w').

(** [AgentBasedNetSimulator.register_resource]: the registry maps a resource
    name to the object registered under it. *)
Definition register_resource (r : string) (st : Store)
    (shared_resources : gmap string string) : gmap string string :=
  match st !! r with
  | Some resource => <[res_name resource := r]> shared_resources
  | None => shared_resources
  end.

(** [ProcessAgent._can_acquire_resources]: for every resource of the
    transition whose name is in the registry, the object registered under
    that name is asked. A resource the store does not hold has no Python
    counterpart and reads as unavailable. *)
Definition _can_acquire_resources (transition : SimTransition)
    (available_resources : gmap string string) (st : Store) : bool :=
  forallb (fun r =>
             match st !! r with
             | Some resource =>
                 match available_resources !! res_name resource with
                 | Some registered =>
                     match st !! registered with
                     | Some res => is_available res
                     | None => false
                     end
                 | None => true
                 end
             | None => false
             end) (resources transition).

(** [ProcessAgent.execute_next_transition]: the event returned, if any, and
    the agent and the world afterwards. *)
Definition execute_next_transition (a : ProcessAgent)
    (available_resources : gmap string string) (draws : nat -> nat) (w : World)
  : Result (option AgentEvent * ProcessAgent * World) :=
  match generator a with
  | None => Done (None, a, w)
  | Some g =>
      match _handle_enabled_transition g with
      | [] => Done (None, a, w)
      | (_ :: _) as enabled =>
          selected_transition ← _fire_transition g enabled (draws (rng w));
          let w := mkWorld (store w) (S (rng w)) (clk w) in
          match selected_transition with
          | Some t =>
              if _can_acquire_resources t available_resources (store w) then
                '(event, g', w') ← _execute_transition g w (Some t);
                match event with
                | Some e =>
                    let ae := mkAgentEvent e (agent_id a) in
                    Done (Some ae,
                          mkAgent (agent_id a) (petri_net a)
                            (agent_initial_marking a) (agent_final_marking a)
                            (event_log a ++ [ae]) (Some g'), w')
                | None =>
                    Done (None,
                          mkAgent (agent_id a) (petri_net a)
                            (agent_initial_marking a) (agent_final_marking a)
                            (event_log a) (Some g'), w')
                end
              else Done (None, a, w)
          | None => Done (None, a, w)
          end
      end
  end.

(** The [for] loop over the agents inside the [while] loop of
    [AgentBasedNetSimulator.simulate]: the agents and the simulator's log
    afterwards. [_handle_agent_interactions] changes nothing. *)
Fixpoint simulate_tick (agents : list ProcessAgent)
    (shared_resources : gmap string string) (max_traces : Z) (draws : nat -> nat)
    (w : World) (sim_log : list AgentEvent)
  : Result (list ProcessAgent * list AgentEvent * World) :=
  match agents with
  | [] => Done ([], sim_log, w)
  | agent :: rest =>
      if max_traces <=? Z.of_nat (length (event_log agent)) then
        '(rest', sim_log', w') ←
          simulate_tick rest shared_resources max_traces draws w sim_log;
        Done (agent :: rest', sim_log', w')
      else
        '(event, agent', w1) ←
          execute_next_transition agent shared_resources draws w;
        let sim_log1 :=
          match event with
          | Some e => sim_log ++ [e]
          | None => sim_log
          end in
        '(rest', sim_log', w') ←
          simulate_tick rest shared_resources max_traces draws w1 sim_log1;
        Done (agent' :: rest', sim_log', w')
  end.

(** The [while] loop of [AgentBasedNetSimulator.simulate]: one unit of fuel
    per round, the clock being read at the head of every round. *)
Fixpoint simulate_loop (fuel : nat) (agents : list ProcessAgent)
    (shared_resources : gmap string string) (max_traces : Z) (end_time : Z)
    (draws : nat -> nat) (clock : nat -> Z) (w : World)
    (sim_log : list AgentEvent)
  : Result (list ProcessAgent * list AgentEvent * World) :=
  match fuel with
  | O => Timeout
  | S fuel' =>
      let now := clock (clk w) in
      let w := mkWorld (store w) (rng w) (S (clk w)) in
      if now <? end_time then
        '(agents', sim_log', w') ←
          simulate_tick agents shared_resources max_traces draws w sim_log;
        if forallb (fun a => max_traces <=? Z.of_nat (length (event_log a)))
             agents'
        then Done (agents', sim_log', w')
        else simulate_loop fuel' agents' shared_resources max_traces end_time
               draws clock w' sim_log'
      else Done (agents, sim_log, w)
  end.

(** The generators of all agents, built in order; [prefix_of] gives the uuid
    the generator of each agent draws. *)
Fixpoint initialize_generators (agents : list ProcessAgent)
    (prefix_of : string -> string) (clock : nat -> Z) (w : World)
  : list ProcessAgent * World :=
  match agents with
  | [] => ([], w)
  | a :: rest =>
      let '(a', w1) := initialize_generator a (prefix_of (agent_id a)) clock w in
      let '(rest', w2) := initialize_generators rest prefix_of clock w1 in
      (a' :: rest', w2)
  end.

(** [AgentBasedNetSimulator.simulate]. *)
Definition simulate (fuel : nat) (agents : list ProcessAgent)
    (shared_resources : gmap string string) (max_traces : Z) (max_time : Z)
    (prefix_of : string -> string) (draws : nat -> nat) (clock : nat -> Z)
    (w : World) (sim_log : list AgentEvent)
  : Result (list ProcessAgent * list AgentEvent * World) :=
  let start_time := clock (clk w) in
  let w := mkWorld (store w) (rng w) (S (clk w)) in
  let end_time := start_time + max_time in
  let '(agents, w) := initialize_generators agents prefix_of clock w in
  simulate_loop fuel agents shared_resources max_traces end_time draws clock
    w sim_log.

(** The number of events all agents have logged. *)
Definition total_events (agents : list ProcessAgent) : nat :=
  sum_list ((fun a => length (event_log a)) <$> agents).

(** What an agent keeps from one call or round to the next: its id and net,
    a log that only grows and, once it shows [max_traces] events, grows no
    further. *)
Definition agent_progress (max_traces : Z) (a a' : ProcessAgent) : Prop :=
  agent_id a' = agent_id a /\
  petri_net a' = petri_net a /\
  (length (event_log a) <= length (event_log a'))%nat /\
  Z.of_nat (length (event_log a'))
    <= Z.max (Z.of_nat (length (event_log a))) max_traces.

(** An agent with a generator on the scenario net. *)
Definition line_agent : ProcessAgent :=
  mkAgent "agent_0" line_net m_P1 (Some m_P2) []
    (Some (mkGenerator line_net m_P1 (Some m_P2) 10000 0 0 false false "g" m_P1 0)).

Definition line_agent_event : AgentEvent :=
  mkAgentEvent (mkEvent "A" 10 "g" 0 []) "agent_0".

Definition line_agent_after : ProcessAgent :=
  mkAgent "agent_0" line_net m_P1 (Some m_P2) [line_agent_event]
    (Some (mkGenerator line_net m_P1 (Some m_P2) 10000 0 10 false false "g" m_P2 1)).

(** Run states used as examples. *)
Definition first_event : Event := mkEvent "A" 10 "g" 0 [].

Definition after_first_event : Generator :=
  mkGenerator line_net m_P1 (Some m_P3) 100 0 10 true false "g" m_P2 1.

Definition dead_generator : Generator :=
  mkGenerator line_net m_P2 None 100 0 0 false false "g" m_P2 0.

(** ** The attempts of a playout *)

(** Whether the first [k] attempts of a playout, made one after the other
    from the draw position [cur], all end in a marking that
    [should_add_trace] rejects. *)
Fixpoint attempts_rejected (k tfuel : nat) (pn : SimPetriNet) (im : Marking)
    (cfg : PlayoutConfig) (draws : nat -> nat) (cur : nat) : bool :=
  match k with
  | O => true
  | S k' =>
      match execute_single_trace tfuel pn im (cfg_max_trace_length cfg)
              (cfg_final_marking cfg) (cfg_fm_leq_accepted cfg) draws cur with
      | Done (_, marking, cur') =>
          match should_add_trace marking (cfg_final_marking cfg)
                  (cfg_add_only_if_fm_is_reached cfg)
                  (cfg_fm_leq_accepted cfg) with
          | Done false => attempts_rejected k' tfuel pn im cfg draws cur'
          | _ => false
          end
      | _ => false
      end
  end.

(** ** The list a draw is made from *)

(** The list [select_transition] and [_fire_transition] hand to
    [random.choice]. *)
Definition candidates (enabled : list SimTransition)
    (final_marking : option Marking) (marking : Marking)
    (fm_leq_accepted : bool) : list (option SimTransition) :=
  if may_stop final_marking marking fm_leq_accepted
  then with_stop enabled
  else Some <$> enabled.

(** What [_start_new_trace] leaves of a generator: the next case id, the
    initial marking, no visible firing yet, and everything else as it was. *)
Definition at_new_trace (g g' : Generator) : Prop :=
  current_case_id g' = current_case_id g + 1 /\
  current_marking g' = initial_marking g /\
  visible_transitions_count g' = 0 /\
  current_timestamp g' = current_timestamp g /\
  config g' = config g.

(** ** Runs in which the order of a listed set is an input *)

(** [list(s)] lists a set in an order that depends on the hashes of its
    members, which for transitions are their addresses and differ from one
    run to the next. [arrange k xs] is the order in which the candidates
    [xs] are listed at the [k]-th draw of a run. *)
Definition Arrangement : Type :=
  nat -> list (option SimTransition) -> list (option SimTransition).

(** The order the embedding otherwise uses. *)
Definition listed_as_given : Arrangement := fun _ xs => xs.

(** [_fire_transition], at the [k]-th draw of a run. *)
Definition _fire_transition_in (arrange : Arrangement) (g : Generator)
    (enabled : list SimTransition) (k d : nat) : Result (option SimTransition) :=
  choice (arrange k (candidates enabled (final_marking g) (current_marking g)
                       (fm_leq_accepted g))) d.

(** One iteration of the loop of [__next__]. *)
Definition next_iteration_in (arrange : Arrangement) (draws : nat -> nat)
    (clock : nat -> Z) (g : Generator) (w : World)
  : Result (option Event * Generator * World) :=
  '(again, g, w) ←
    (if _should_start_new_trace g then
       '(invalid, g1, w1) ← _handle_invalid_trace clock g w;
       if (invalid : bool) then Done (true, g1, w1)
       else Done (false, _start_new_trace g1, w1)
     else Done (false, g, w));
  if (again : bool) then Done (None, g, w)
  else
    let enabled_transitions := _handle_enabled_transition g in
    match enabled_transitions with
    | [] => Done (None, _start_new_trace g, w)
    | _ :: _ =>
        current_transition ←
          _fire_transition_in arrange g enabled_transitions (rng w)
            (draws (rng w));
        _execute_transition g (mkWorld (store w) (S (rng w)) (clk w))
          current_transition
    end.

(** [__next__]. *)
Fixpoint next_in (arrange : Arrangement) (fuel : nat) (draws : nat -> nat)
    (clock : nat -> Z) (g : Generator) (w : World)
  : Result (Event * Generator * World) :=
  match fuel with
  | O => Timeout
  | S fuel' =>
      '(event_yield, g', w') ← next_iteration_in arrange draws clock g w;
      match event_yield with
      | Some e => Done (e, g', w')
      | None => next_in arrange fuel' draws clock g' w'
      end
  end.

(** The first [n] events of the generator. *)
Fixpoint generate_in (arrange : Arrangement) (fuel : nat) (n : nat)
    (draws : nat -> nat) (clock : nat -> Z) (g : Generator) (w : World)
  : Result (list Event) :=
  match n with
  | O => Done []
  | S n' =>
      '(e, g', w') ← next_in arrange fuel draws clock g w;
      es ← generate_in arrange fuel n' draws clock g' w';
      Done (e :: es)
  end.

(** ** Further example nets *)

(** A net with a choice: P1 -> a -> P2 and P1 -> b -> P3. *)
Definition T_a : SimTransition :=
  mkTransition "a" (Some "a") 10 [] [] None
    [mkArc "P1" "a" 1] [mkArc "a" "P2" 1].

Definition T_b : SimTransition :=
  mkTransition "b" (Some "b") 10 [] [] None
    [mkArc "P1" "b" 1] [mkArc "b" "P3" 1].

Definition fork_net : SimPetriNet :=
  mkNet "fork" ["P1"; "P2"; "P3"] [T_a; T_b]
    [mkArc "P1" "a" 1; mkArc "a" "P2" 1; mkArc "P1" "b" 1; mkArc "b" "P3" 1].

(** Draws whose first one selects the second candidate. *)
Definition unlucky_draws : nat -> nat :=
  fun i => match i with O => 1%nat | S _ => 0%nat end.

(** A generator standing at its final marking on the looping net, so that
    the stop option is on offer, and an agent holding it. *)
Definition loop_generator : Generator :=
  mkGenerator loop_net m_P1 (Some m_P1) 10000 0 0 false false "g" m_P1 0.

Definition loop_agent : ProcessAgent :=
  mkAgent "agent_0" loop_net m_P1 (Some m_P1) [] (Some loop_generator).

(** The order that lists the candidates backwards. *)
Definition listed_backwards : Arrangement := fun _ xs => reverse xs.

(** A second object named like the robot of [exhausted_store], with a unit
    available. *)
Definition two_robots : Store :=
  {[ "robot" := new_resource "robot" 0; "robot2" := new_resource "robot" 1 ]}.

(** * Properties *)

(** ** Resources *)

Section ResourceFacts.

Lemma acquire_unavailable (r : BaseResource) :
  available r <= 0 -> acquire r = (false, r).
Proof.
  intros H. unfold acquire, is_available.
  destruct (0 <? available r) eqn:E; [apply Z.ltb_lt in E; lia | reflexivity].
Qed.

Lemma res_step_available (r : BaseResource) (c : res_call) :
  available (res_step r c).1 =
  available r - (if (res_step r c).2 then 1 else 0)
              + (match c with Release _ => 1 | Acquire => 0 end).
Proof.
  destruct c as [|t]; simpl.
  - unfold acquire. destruct (is_available r); simpl; lia.
  - lia.
Qed.

Lemma res_step_capacity (r : BaseResource) (c : res_call) :
  capacity (res_step r c).1 = capacity r.
Proof.
  destruct c as [|t]; simpl; [|reflexivity].
  unfold acquire. destruct (is_available r); reflexivity.
Qed.

Lemma res_step_nonneg (r : BaseResource) (c : res_call) :
  0 <= available r -> 0 <= available (res_step r c).1.
Proof.
  intros H. destruct c as [|t]; simpl.
  - unfold acquire, is_available.
    destruct (0 <? available r) eqn:E; simpl; [apply Z.ltb_lt in E; lia | lia].
  - lia.
Qed.

Lemma run_calls_cons (c : res_call) (cs : list res_call) (r : BaseResource) :
  run_calls (c :: cs) r = run_calls cs (res_step r c).1.
Proof. reflexivity. Qed.

Lemma acquired_cons (c : res_call) (cs : list res_call) (r : BaseResource) :
  acquired (c :: cs) r =
  (if (res_step r c).2 then 1 else 0) + acquired cs (res_step r c).1.
Proof. simpl. destruct (res_step r c) as [r' ok]. reflexivity. Qed.

Lemma released_cons (c : res_call) (cs : list res_call) :
  released (c :: cs) =
  (match c with Release _ => 1 | Acquire => 0 end) + released cs.
Proof. destruct c; simpl; lia. Qed.

(** The state after a sequence of calls, from any resource with a
    non-negative count. *)
Lemma run_calls_account (cs : list res_call) (r : BaseResource) :
  0 <= available r ->
  0 <= available (run_calls cs r) /\
  capacity (run_calls cs r) = capacity r /\
  available (run_calls cs r) = available r - acquired cs r + released cs.
Proof.
  revert r. induction cs as [|c cs IH]; intros r Hr.
  - simpl. repeat split; lia.
  - rewrite run_calls_cons, acquired_cons, released_cons.
    destruct (IH (res_step r c).1 (res_step_nonneg r c Hr)) as (H0 & Hc & Ha).
    rewrite Hc, Ha, res_step_capacity, res_step_available.
    rewrite Ha, res_step_available in H0. revert H0.
    generalize (acquired cs (res_step r c).1).
    destruct ((res_step r c).2), c; intros; repeat split; lia.
Qed.

End ResourceFacts.

(** C1, as stated, fails: a release on a full resource leaves more units
    available than its capacity, and a resource built with a negative capacity
    starts below 0. *)
Lemma resource_bounds_fail :
  ~ (forall (nm : string) (c : Z) (cs : list res_call),
        0 <= available (run_calls cs (new_resource nm c))
             <= capacity (run_calls cs (new_resource nm c))).
Proof.
  intros H.
  specialize (H (res_name RobotArm) (capacity RobotArm) [Release 0]).
  vm_compute in H. destruct H as [_ H]. apply H. reflexivity.
Qed.

(** C1, amended: for a resource built with capacity [c >= 0], after any
    sequence of acquire and release calls [0 <= available] holds, the capacity
    is [c] and [available] is [c] minus the successful acquires plus the
    releases, so that [available <= capacity] holds exactly when the releases
    do not outnumber the successful acquires; an acquire on a resource with
    [available = 0] returns [False] and changes nothing; a release adds exactly
    one unit, with no cap. *)
Theorem resource_account (nm : string) (c : Z) (cs : list res_call) :
  0 <= c ->
  let r0 := new_resource nm c in
  let r := run_calls cs r0 in
  0 <= available r /\
  capacity r = c /\
  available r = c - acquired cs r0 + released cs /\
  (available r <= capacity r <-> released cs <= acquired cs r0) /\
  (available r = 0 -> acquire r = (false, r)) /\
  (forall t, available (release t r) = available r + 1 /\
             capacity (release t r) = capacity r).
Proof.
  intros Hc r0 r.
  destruct (run_calls_account cs r0 Hc) as (H0 & Hcap & Hav).
  fold r in H0, Hcap, Hav. simpl in Hcap, Hav.
  repeat split; try assumption; try lia.
  intros Hz. apply acquire_unavailable. lia.
Qed.

Lemma resource_account_witness :
  let r := run_calls [Acquire; Acquire; Release 7] (new_resource "robot" 1) in
  0 <= available r /\ capacity r = 1 /\
  available r = 1 - acquired [Acquire; Acquire; Release 7] (new_resource "robot" 1)
                  + released [Acquire; Acquire; Release 7] /\
  (available r <= capacity r <->
   released [Acquire; Acquire; Release 7]
     <= acquired [Acquire; Acquire; Release 7] (new_resource "robot" 1)) /\
  (available r = 0 -> acquire r = (false, r)) /\
  (forall t, available (release t r) = available r + 1 /\
             capacity (release t r) = capacity r).
Proof.
  apply (resource_account "robot" 1 [Acquire; Acquire; Release 7]). lia.
Defined.

(** ** Enabledness *)

Lemma transition_in_iff (t : SimTransition) (pn : SimPetriNet) :
  transition_in t pn = true <-> name t ∈ (name <$> transitions pn).
Proof. unfold transition_in. apply bool_decide_eq_true. Qed.

Lemma enough_tokens_iff (m : Marking) (as_ : list Arc) :
  forallb (fun a => negb (count m (source a) <? weight a)) as_ = true <->
  Forall (fun a => weight a <= count m (source a)) as_.
Proof.
  induction as_ as [|a as_ IH]; simpl.
  - split; [constructor | reflexivity].
  - rewrite andb_true_iff, IH, Forall_cons, negb_true_iff, Z.ltb_ge.
    reflexivity.
Qed.

Lemma is_enabled_tokens (t : SimTransition) (pn : SimPetriNet) (m : Marking) :
  is_enabled t pn m = true ->
  Forall (fun a => weight a <= count m (source a)) (in_arcs t).
Proof.
  unfold is_enabled. destruct (transition_in t pn); [|discriminate].
  apply enough_tokens_iff.
Qed.

(** C2: [is_enabled] holds exactly for a transition of the net each of whose
    incoming arcs finds at least its weight in tokens on its source place, a
    place absent from the marking counting as 0. *)
Theorem is_enabled_iff (t : SimTransition) (pn : SimPetriNet) (m : Marking) :
  is_enabled t pn m = true <->
  name t ∈ (name <$> transitions pn) /\
  Forall (fun a => weight a <= default 0 (m !! source a)) (in_arcs t).
Proof.
  unfold is_enabled. fold (count m).
  destruct (transition_in t pn) eqn:E.
  - rewrite enough_tokens_iff. apply transition_in_iff in E. tauto.
  - split; [discriminate |]. intros [Hin _].
    apply transition_in_iff in Hin. congruence.
Qed.

(** ** Firing: the marking reached *)

Section Firing.

Implicit Types (m : Marking) (a : Arc) (p : string).

Lemma count_nonzero (z : Z) : default 0 (nonzero z) = z.
Proof.
  unfold nonzero. destruct (z =? 0) eqn:E; simpl; [|reflexivity].
  apply Z.eqb_eq in E. lia.
Qed.

Lemma count_set_eq m p v : count (set_count m p v) p = v.
Proof. unfold count, set_count. by rewrite lookup_insert_eq. Qed.

Lemma consume_lookup m a p :
  consume m a !! p =
  if decide (p = source a) then nonzero (count m p - weight a) else m !! p.
Proof.
  unfold consume. rewrite count_set_eq. unfold nonzero, set_count, del_count.
  destruct (decide (p = source a)) as [->|Hne].
  - destruct (count m (source a) - weight a =? 0).
    + by rewrite lookup_delete_eq.
    + by rewrite lookup_insert_eq.
  - destruct (count m (source a) - weight a =? 0).
    + rewrite lookup_delete_ne by done. by rewrite lookup_insert_ne.
    + by rewrite lookup_insert_ne.
Qed.

Lemma weak_consume_lookup m a p :
  weak_consume m a !! p =
  if decide (p = source a)
  then (if count m p - weight a <=? 0 then None
        else Some (count m p - weight a))
  else m !! p.
Proof.
  unfold weak_consume. rewrite count_set_eq. unfold set_count, del_count.
  destruct (decide (p = source a)) as [->|Hne].
  - destruct (count m (source a) - weight a <=? 0).
    + by rewrite lookup_delete_eq.
    + by rewrite lookup_insert_eq.
  - destruct (count m (source a) - weight a <=? 0).
    + rewrite lookup_delete_ne by done. by rewrite lookup_insert_ne.
    + by rewrite lookup_insert_ne.
Qed.

Lemma produce_lookup m a p :
  produce m a !! p =
  if decide (p = target a) then Some (count m p + weight a) else m !! p.
Proof.
  unfold produce, set_count.
  destruct (decide (p = target a)) as [->|Hne].
  - by rewrite lookup_insert_eq.
  - by rewrite lookup_insert_ne.
Qed.

Lemma consume_count m a p :
  count (consume m a) p =
  count m p - (if decide (source a = p) then weight a else 0).
Proof.
  unfold count at 1. rewrite consume_lookup.
  destruct (decide (p = source a)) as [->|Hne].
  - rewrite count_nonzero. by rewrite decide_True.
  - rewrite decide_False by done. unfold count. lia.
Qed.

Lemma produce_count m a p :
  count (produce m a) p =
  count m p + (if decide (target a = p) then weight a else 0).
Proof.
  unfold count at 1. rewrite produce_lookup.
  destruct (decide (p = target a)) as [->|Hne].
  - simpl. by rewrite decide_True.
  - rewrite decide_False by done. unfold count. lia.
Qed.

Lemma arc_weight_at_cons (endp : Arc -> string) a (as_ : list Arc) p :
  arc_weight_at endp (a :: as_) p =
  (if decide (endp a = p) then weight a else 0) + arc_weight_at endp as_ p.
Proof. simpl. destruct (decide (endp a = p)); lia. Qed.

Lemma arc_weight_at_notin (endp : Arc -> string) (as_ : list Arc) p :
  p ∉ (endp <$> as_) -> arc_weight_at endp as_ p = 0.
Proof.
  induction as_ as [|b bs IH]; [done|].
  rewrite fmap_cons, not_elem_of_cons, arc_weight_at_cons.
  intros [Hne Hnotin]. rewrite decide_False by done. rewrite IH by done. lia.
Qed.

(** The first loop of [execute], place by place. *)
Lemma consume_all_lookup (as_ : list Arc) m p :
  foldl consume m as_ !! p =
  if bool_decide (p ∈ (source <$> as_))
  then nonzero (count m p - arc_weight_at source as_ p)
  else m !! p.
Proof.
  revert m. induction as_ as [|a as_ IH]; intros m.
  - rewrite bool_decide_eq_false_2; [done | apply not_elem_of_nil].
  - change (foldl consume m (a :: as_)) with (foldl consume (consume m a) as_).
    rewrite IH, consume_count, arc_weight_at_cons, fmap_cons.
    destruct (bool_decide (p ∈ source <$> as_)) eqn:E.
    + rewrite bool_decide_eq_true_2.
      * f_equal. lia.
      * apply bool_decide_eq_true in E. apply elem_of_cons. by right.
    + apply bool_decide_eq_false in E. rewrite consume_lookup.
      destruct (decide (p = source a)) as [->|Hne].
      * rewrite bool_decide_eq_true_2 by (apply elem_of_cons; by left).
        rewrite decide_True by done.
        rewrite (arc_weight_at_notin source as_ (source a)) by done.
        f_equal. lia.
      * rewrite bool_decide_eq_false_2; [done |].
        intros H. apply elem_of_cons in H as [H|H]; [done | by apply E].
Qed.

(** The second loop of [execute], place by place. *)
Lemma produce_all_lookup (as_ : list Arc) m p :
  foldl produce m as_ !! p =
  if bool_decide (p ∈ (target <$> as_))
  then Some (count m p + arc_weight_at target as_ p)
  else m !! p.
Proof.
  revert m. induction as_ as [|a as_ IH]; intros m.
  - rewrite bool_decide_eq_false_2; [done | apply not_elem_of_nil].
  - change (foldl produce m (a :: as_)) with (foldl produce (produce m a) as_).
    rewrite IH, produce_count, arc_weight_at_cons, fmap_cons.
    destruct (bool_decide (p ∈ target <$> as_)) eqn:E.
    + rewrite bool_decide_eq_true_2.
      * f_equal. lia.
      * apply bool_decide_eq_true in E. apply elem_of_cons. by right.
    + apply bool_decide_eq_false in E. rewrite produce_lookup.
      destruct (decide (p = target a)) as [->|Hne].
      * rewrite bool_decide_eq_true_2 by (apply elem_of_cons; by left).
        rewrite decide_True by done.
        rewrite (arc_weight_at_notin target as_ (target a)) by done.
        f_equal. lia.
      * rewrite bool_decide_eq_false_2; [done |].
        intros H. apply elem_of_cons in H as [H|H]; [done | by apply E].
Qed.

(** Both loops together give the entry the specification describes. *)
Lemma fire_lookup (t : SimTransition) m p :
  foldl produce (foldl consume m (in_arcs t)) (out_arcs t) !! p =
  fired_entry t m p.
Proof.
  rewrite produce_all_lookup. unfold fired_entry.
  destruct (bool_decide (p ∈ target <$> out_arcs t)).
  - unfold count at 1. rewrite consume_all_lookup.
    destruct (bool_decide (p ∈ source <$> in_arcs t)) eqn:E.
    + by rewrite count_nonzero.
    + apply bool_decide_eq_false in E.
      rewrite (arc_weight_at_notin source (in_arcs t) p) by done.
      unfold count. f_equal. lia.
  - apply consume_all_lookup.
Qed.

Lemma execute_enabled (t : SimTransition) (pn : SimPetriNet) m :
  is_enabled t pn m = true ->
  execute t pn m = Some (foldl produce (foldl consume m (in_arcs t)) (out_arcs t)).
Proof. intros H. unfold execute. by rewrite H. Qed.

Lemma execute_disabled (t : SimTransition) (pn : SimPetriNet) m :
  is_enabled t pn m = false -> execute t pn m = None.
Proof. intros H. unfold execute. by rewrite H. Qed.

(** On an arc that finds its weight on its source place, both semantics
    take the same step. *)
Lemma weak_consume_enough m a :
  weight a <= count m (source a) -> weak_consume m a = consume m a.
Proof.
  intros H. unfold weak_consume, consume. rewrite count_set_eq.
  destruct (count m (source a) - weight a =? 0) eqn:E.
  - apply Z.eqb_eq in E. rewrite (proj2 (Z.leb_le _ _)); [done | lia].
  - apply Z.eqb_neq in E. rewrite (proj2 (Z.leb_gt _ _)); [done | lia].
Qed.

Lemma weak_consume_all (as_ : list Arc) m :
  NoDup (source <$> as_) ->
  Forall (fun a => weight a <= count m (source a)) as_ ->
  foldl weak_consume m as_ = foldl consume m as_.
Proof.
  revert m. induction as_ as [|a as_ IH]; intros m Hnd Hall; [done|].
  rewrite fmap_cons in Hnd. apply NoDup_cons in Hnd as [Hnotin Hnd].
  apply Forall_cons in Hall as [Ha Hall]. simpl.
  rewrite weak_consume_enough by done. apply IH; [done|].
  rewrite Forall_forall in Hall. apply Forall_forall. intros b Hb.
  rewrite consume_count, decide_False.
  - specialize (Hall b Hb). lia.
  - intros Heq. apply Hnotin. rewrite Heq. apply list_elem_of_fmap. eauto.
Qed.

End Firing.

(** A firing that legitimately returns the empty marking. *)
Lemma execute_sink_empty : execute T_sink sink_net m_P1 = Some ∅.
Proof. vm_compute. reflexivity. Qed.

(** C3: [execute] returns [None] exactly when the transition is not enabled;
    a marking it returns has, for every place, the entry obtained by
    subtracting the weights of the incoming arcs from that place (the place
    being dropped when it is emptied to exactly 0) and adding the weights of
    the outgoing arcs to it; and a refused firing is never the empty marking,
    which is what an enabled firing may return. *)
Theorem execute_result (t : SimTransition) (pn : SimPetriNet) (m : Marking) :
  (execute t pn m = None <-> is_enabled t pn m = false) /\
  (is_enabled t pn m = true ->
   exists m', execute t pn m = Some m' /\
              m' = foldl produce (foldl consume m (in_arcs t)) (out_arcs t) /\
              forall p, m' !! p = fired_entry t m p) /\
  (is_enabled t pn m = false -> execute t pn m <> Some ∅).
Proof.
  split; [|split].
  - destruct (is_enabled t pn m) eqn:E.
    + rewrite (execute_enabled _ _ _ E). split; discriminate.
    + rewrite (execute_disabled _ _ _ E). split; reflexivity.
  - intros E. eexists. split; [apply (execute_enabled _ _ _ E)|].
    split; [reflexivity|]. intros p. apply fire_lookup.
  - intros E. rewrite (execute_disabled _ _ _ E). discriminate.
Qed.

Lemma execute_result_witness :
  exists m', execute T_sink sink_net m_P1 = Some m' /\
             m' = foldl produce (foldl consume m_P1 (in_arcs T_sink)) (out_arcs T_sink) /\
             forall p, m' !! p = fired_entry T_sink m_P1 p.
Proof.
  apply (execute_result T_sink sink_net m_P1). vm_compute. reflexivity.
Defined.

(** C7: firing an enabled transition leaves every place that is neither the
    source of one of its incoming arcs nor the target of one of its outgoing
    arcs with the token count, and the entry, it had. *)
Theorem execute_frame (t : SimTransition) (pn : SimPetriNet) (m : Marking) :
  is_enabled t pn m = true ->
  exists m', execute t pn m = Some m' /\
    forall p, p ∉ (source <$> in_arcs t) -> p ∉ (target <$> out_arcs t) ->
              default 0 (m' !! p) = default 0 (m !! p) /\ m' !! p = m !! p.
Proof.
  intros E. eexists. split; [apply (execute_enabled _ _ _ E)|].
  intros p Hs Ht. rewrite fire_lookup. unfold fired_entry.
  rewrite !bool_decide_eq_false_2 by done. done.
Qed.

Lemma execute_frame_witness :
  exists m', execute T_A line_net m_P1 = Some m' /\
    forall p, p ∉ (source <$> in_arcs T_A) -> p ∉ (target <$> out_arcs T_A) ->
              default 0 (m' !! p) = default 0 (m_P1 !! p) /\ m' !! p = m_P1 !! p.
Proof.
  apply (execute_frame T_A line_net m_P1). vm_compute. reflexivity.
Defined.

(** C6, as stated, fails: a transition with two parallel arcs from a place
    holding one token is enabled, [execute] leaves that place with the count
    -1 and [weak_execute] drops it. *)
Lemma weak_execute_differs :
  ~ (forall (t : SimTransition) (pn : SimPetriNet) (m : Marking),
        is_enabled t pn m = true ->
        execute t pn m = Some (weak_execute t pn m)).
Proof.
  intros H. specialize (H T_double double_net m_P1 eq_refl).
  apply (f_equal (fun o => o ≫= (fun m' : Marking => m' !! "P1"))) in H.
  vm_compute in H. discriminate H.
Qed.

(** C6, amended: [weak_execute] is total and runs the two loops of [execute],
    its first loop dropping a place whenever the count left on it is [<= 0];
    when the transition is enabled and its incoming arcs have pairwise
    distinct source places, it returns the marking [execute] returns. *)
Theorem weak_execute_agrees (t : SimTransition) (pn : SimPetriNet) (m : Marking) :
  weak_execute t pn m
    = foldl produce (foldl weak_consume m (in_arcs t)) (out_arcs t) /\
  (forall (m0 : Marking) (a : Arc) (p : string),
      weak_consume m0 a !! p =
      if decide (p = source a)
      then (if default 0 (m0 !! p) - weight a <=? 0 then None
            else Some (default 0 (m0 !! p) - weight a))
      else m0 !! p) /\
  (NoDup (source <$> in_arcs t) ->
   is_enabled t pn m = true ->
   execute t pn m = Some (weak_execute t pn m)).
Proof.
  split; [reflexivity|]. split; [apply weak_consume_lookup|].
  intros Hnd E. rewrite (execute_enabled _ _ _ E). unfold weak_execute.
  rewrite weak_consume_all; [reflexivity | done |].
  by apply is_enabled_tokens in E.
Qed.

Lemma weak_execute_agrees_witness :
  execute T_A line_net m_P1 = Some (weak_execute T_A line_net m_P1).
Proof.
  apply (weak_execute_agrees T_A line_net m_P1).
  - apply NoDup_singleton.
  - vm_compute. reflexivity.
Defined.

(** ** Selection *)

Section Selection.

Context {A : Type}.
Implicit Types (xs : list A) (x : A) (d : nat).

Lemma choice_elem xs d x : choice xs d = Done x -> x ∈ xs.
Proof.
  unfold choice. destruct (xs !! _) as [y|] eqn:E; [|discriminate].
  intros [= <-]. apply list_elem_of_lookup. eauto.
Qed.

Lemma choice_reach xs x : x ∈ xs -> exists d, choice xs d = Done x.
Proof.
  intros H. apply list_elem_of_lookup in H as [i Hi].
  exists i. unfold choice.
  rewrite Nat.mod_small by (eapply lookup_lt_Some; eauto).
  by rewrite Hi.
Qed.

Lemma choice_possible xs x : (exists d, choice xs d = Done x) <-> x ∈ xs.
Proof.
  split; [intros [d Hd]; eapply choice_elem; eauto | apply choice_reach].
Qed.

End Selection.

Lemma may_stop_iff (fm : option Marking) (m : Marking) (leq : bool) :
  may_stop fm m leq = true <-> stop_offered fm m leq.
Proof.
  unfold may_stop, stop_offered. destruct fm as [f|].
  - rewrite andb_true_iff, orb_true_iff. split.
    + intros [Hle He]. exists f. auto.
    + intros (f' & [= <-] & Hle & He). auto.
  - split; [discriminate | intros (f' & [=] & _)].
Qed.

Lemma elem_of_with_stop (ts : list SimTransition) (x : option SimTransition) :
  x ∈ with_stop ts <-> match x with Some t => t ∈ ts | None => True end.
Proof.
  unfold with_stop. rewrite elem_of_app, list_elem_of_fmap, list_elem_of_singleton.
  destruct x as [t|]; split; auto.
  - intros [(t' & [= <-] & H)|H]; [done | discriminate].
  - intros H. left. eauto.
Qed.

Lemma elem_of_without_stop (ts : list SimTransition) (x : option SimTransition) :
  x ∈ (Some <$> ts) <-> match x with Some t => t ∈ ts | None => False end.
Proof.
  rewrite list_elem_of_fmap. destruct x as [t|]; split.
  - by intros (t' & [= <-] & H).
  - eauto.
  - by intros (t' & [=] & _).
  - done.
Qed.

(** The outcomes a draw can produce are the candidates, for any test value. *)
Lemma draw_candidates (ts : list SimTransition) (fm : option Marking)
    (m : Marking) (leq : bool) (x : option SimTransition) :
  (exists d, (if may_stop fm m leq then choice (with_stop ts) d
              else choice (Some <$> ts) d) = Done x) <->
  candidate ts fm m leq x.
Proof.
  unfold candidate. pose proof (may_stop_iff fm m leq) as Hs.
  destruct (may_stop fm m leq).
  - rewrite choice_possible, elem_of_with_stop.
    destruct x; [done | tauto].
  - rewrite choice_possible, elem_of_without_stop.
    destruct x; [done|]. split; [done|]. intros H. apply Hs in H. discriminate.
Qed.

Lemma should_start_false_enabled (g : Generator) :
  _should_start_new_trace g = false ->
  exists t ts, _handle_enabled_transition g = t :: ts.
Proof.
  unfold _should_start_new_trace, _handle_enabled_transition.
  rewrite orb_false_iff. intros [_ H].
  destruct (enabled_transitions (net g) (current_marking g)) as [|t ts];
    [discriminate | eauto].
Qed.

Lemma choice_lookup {A : Type} (xs : list A) (d : nat) (x : A) :
  choice xs d = Done x <-> xs !! (d mod length xs)%nat = Some x.
Proof.
  unfold choice. destruct (xs !! (d mod length xs)%nat) as [y|].
  - split; intros [= ->]; reflexivity.
  - split; discriminate.
Qed.

Lemma elem_of_candidates (ts : list SimTransition) (fm : option Marking)
    (m : Marking) (leq : bool) (x : option SimTransition) :
  x ∈ candidates ts fm m leq <-> candidate ts fm m leq x.
Proof.
  unfold candidates, candidate. pose proof (may_stop_iff fm m leq) as Hs.
  destruct (may_stop fm m leq).
  - rewrite elem_of_with_stop. destruct x; [done | tauto].
  - rewrite elem_of_without_stop. destruct x; [done|].
    split; [done|]. intros H. apply Hs in H. discriminate.
Qed.

Lemma candidates_NoDup (ts : list SimTransition) (fm : option Marking)
    (m : Marking) (leq : bool) :
  NoDup ts -> NoDup (candidates ts fm m leq).
Proof.
  intros Hnd. unfold candidates, with_stop.
  assert (NoDup (Some <$> ts)) as Hs by (by apply (NoDup_fmap_2 Some)).
  destruct (may_stop fm m leq); [|done].
  apply NoDup_app. split; [done|]. split.
  - intros x Hx Hn. apply list_elem_of_singleton in Hn. subst x.
    by apply elem_of_without_stop in Hx.
  - apply NoDup_singleton.
Qed.

Lemma select_transition_candidates (ts : list SimTransition)
    (fm : option Marking) (m : Marking) (leq : bool) (d : nat) :
  select_transition ts fm m leq d = choice (candidates ts fm m leq) d.
Proof. unfold select_transition, candidates. by destruct (may_stop fm m leq). Qed.

Lemma fire_transition_candidates (g : Generator) (ts : list SimTransition)
    (d : nat) :
  _fire_transition g ts d
  = choice (candidates ts (final_marking g) (current_marking g)
              (fm_leq_accepted g)) d.
Proof. apply select_transition_candidates. Qed.

Lemma select_stop_offered (ts : list SimTransition) (fm : option Marking)
    (m : Marking) (leq : bool) (d : nat) :
  select_transition ts fm m leq d = Done None -> may_stop fm m leq = true.
Proof.
  unfold select_transition. destruct (may_stop fm m leq); [done|].
  intros H. apply choice_elem in H. by apply elem_of_without_stop in H.
Qed.

Lemma start_new_trace_at (g : Generator) : at_new_trace g (_start_new_trace g).
Proof. unfold at_new_trace. by repeat split. Qed.

(** C5, as stated, fails: in [ProcessAgent.execute_next_transition] a stop
    drawn by [_fire_transition] ends nothing: the agent's generator stays in
    the trace and the case it was in. *)
Lemma stop_dropped_by_agent :
  ~ (forall (a a' : ProcessAgent) (g : Generator) (reg : gmap string string)
            (draws : nat -> nat) (w w' : World) (e : option AgentEvent),
        generator a = Some g ->
        _fire_transition g (_handle_enabled_transition g) (draws (rng w))
          = Done None ->
        execute_next_transition a reg draws w = Done (e, a', w') ->
        exists g', generator a' = Some g' /\ at_new_trace g g').
Proof.
  intros H.
  destruct (H loop_agent loop_agent loop_generator ∅ one_draws empty_world
              (mkWorld ∅ 1 0) None eq_refl eq_refl eq_refl)
    as (g' & Hg' & Hcase & _).
  injection Hg' as <-. vm_compute in Hcase. discriminate Hcase.
Qed.

(** C5, amended: [select_transition] and [_fire_transition] draw, at the
    position the draw gives counted round the list, from a list that holds
    the enabled transitions and, exactly when a final marking is configured,
    is below the current marking, and equals it or the superset flag is set,
    the stop option; the list holds every candidate once when the enabled
    transitions are distinct, so no candidate is favoured. A stop ends the
    batch trace at the current marking and makes [__next__] start a new trace
    (next case id, initial marking, no visible firing); in
    [ProcessAgent.execute_next_transition] a stop is dropped and the agent is
    left as it was. *)
Theorem selection_candidates (enabled : list SimTransition)
    (fm : option Marking) (m : Marking) (leq : bool) (g : Generator) :
  (forall d x,
      select_transition enabled fm m leq d = Done x <->
      candidates enabled fm m leq
        !! (d mod length (candidates enabled fm m leq))%nat = Some x) /\
  (forall d x,
      _fire_transition g enabled d = Done x <->
      candidates enabled (final_marking g) (current_marking g)
          (fm_leq_accepted g)
        !! (d mod length (candidates enabled (final_marking g)
                            (current_marking g) (fm_leq_accepted g)))%nat
      = Some x) /\
  (forall x, x ∈ candidates enabled fm m leq <->
             match x with
             | Some t => t ∈ enabled
             | None => exists f, fm = Some f /\ marking_le f m = true /\
                                 (marking_eq f m = true \/ leq = true)
             end) /\
  (NoDup enabled -> NoDup (candidates enabled fm m leq)) /\
  (forall fuel pn mtl draws visited visible cur,
      Z.of_nat (length visible) < mtl ->
      enabled_transitions pn m <> [] ->
      select_transition (enabled_transitions pn m) fm m leq (draws cur) = Done None ->
      trace_loop (S fuel) pn mtl fm leq draws visited visible m cur
        = Done (visited ++ [VMarking m], m, S cur)) /\
  (forall draws clock w,
      _should_start_new_trace g = false ->
      _fire_transition g (_handle_enabled_transition g) (draws (rng w))
        = Done None ->
      exists g',
        next_iteration draws clock g w
          = Done (None, g', mkWorld (store w) (S (rng w)) (clk w)) /\
        at_new_trace g g') /\
  (forall (a : ProcessAgent) (reg : gmap string string) draws w,
      generator a = Some g ->
      _handle_enabled_transition g <> [] ->
      _fire_transition g (_handle_enabled_transition g) (draws (rng w))
        = Done None ->
      execute_next_transition a reg draws w
        = Done (None, a, mkWorld (store w) (S (rng w)) (clk w))).
Proof.
  split; [|split; [|split; [|split; [|split; [|split]]]]].
  - intros d x. rewrite select_transition_candidates. apply choice_lookup.
  - intros d x. rewrite fire_transition_candidates. apply choice_lookup.
  - intros x. apply elem_of_candidates.
  - apply candidates_NoDup.
  - intros fuel pn mtl draws visited visible cur Hlen Hne Hsel. simpl.
    rewrite (proj2 (Z.ltb_lt _ _) Hlen).
    destruct (enabled_transitions pn m) as [|t0 ts] eqn:E; [done|].
    rewrite Hsel. reflexivity.
  - intros draws clock w Hstart Hfire. exists (_start_new_trace g).
    split; [|apply start_new_trace_at].
    unfold next_iteration. rewrite Hstart. simpl.
    destruct (should_start_false_enabled g Hstart) as (t0 & ts & Hen).
    rewrite Hen in *. rewrite Hfire. reflexivity.
  - intros a reg draws w Hgen Hen Hfire. unfold execute_next_transition.
    rewrite Hgen.
    destruct (_handle_enabled_transition g) as [|t0 ts]; [done|].
    rewrite Hfire. reflexivity.
Qed.

Lemma selection_candidates_witness :
  exists g',
    next_iteration one_draws (const_clock 0) loop_generator empty_world
      = Done (None, g', mkWorld ∅ 1 0) /\
    at_new_trace loop_generator g'.
Proof.
  apply (selection_candidates [] None ∅ false loop_generator
           : _ /\ _ /\ _ /\ _ /\ _ /\ _ /\ _).
  - vm_compute. reflexivity.
  - vm_compute. reflexivity.
Defined.

(** ** Acceptance *)

(** C10: with a final marking provided, the batch predicate
    [should_add_trace] and the generator's [_is_trace_acceptable] return the
    same boolean, for every marking and both flags. *)
Theorem acceptance_agrees (g : Generator) (m f : Marking) :
  final_marking g = Some f ->
  exists b : bool,
    should_add_trace m (final_marking g) (add_only_if_fm_is_reached g)
      (fm_leq_accepted g) = Done b /\
    _is_trace_acceptable g m = Done b.
Proof.
  intros Hf. unfold should_add_trace, _is_trace_acceptable. rewrite Hf.
  destruct (add_only_if_fm_is_reached g); simpl; [|eauto].
  destruct (marking_eq f m); simpl; eauto.
Qed.

Lemma acceptance_agrees_witness :
  exists b : bool,
    should_add_trace m_P2 (final_marking (strict_generator "g"))
      (add_only_if_fm_is_reached (strict_generator "g"))
      (fm_leq_accepted (strict_generator "g")) = Done b /\
    _is_trace_acceptable (strict_generator "g") m_P2 = Done b.
Proof.
  apply (acceptance_agrees (strict_generator "g") m_P2 m_P3). reflexivity.
Defined.

(** ** Resources at firing time *)

Lemma unavailable_resource_blocks (t : SimTransition) (st : Store) :
  (exists r res, r ∈ resources t /\ st !! r = Some res /\ available res <= 0) ->
  all_resources_available t st = false.
Proof.
  intros (r & res & Hin & Hst & Hav). unfold all_resources_available.
  apply not_true_iff_false. rewrite forallb_forall. intros H.
  specialize (H r (proj1 (list_elem_of_In _ _) Hin)). rewrite Hst in H.
  unfold is_available in H. apply Z.ltb_lt in H. lia.
Qed.

(** C8: when one of the resources the selected transition requires has no
    unit available, [_execute_transition] returns no event and leaves the
    generator (marking, case id, timestamp, visible count) and every resource
    as they were, without raising; the iteration of [__next__] that made the
    selection has then only consumed its draw. *)
Theorem blocked_firing_skipped (g : Generator) (w : World) (t : SimTransition) :
  (exists r res, r ∈ resources t /\ store w !! r = Some res /\
                 available res <= 0) ->
  _execute_transition g w (Some t) = Done (None, g, w) /\
  (forall draws clock,
      _should_start_new_trace g = false ->
      _fire_transition g (_handle_enabled_transition g) (draws (rng w))
        = Done (Some t) ->
      next_iteration draws clock g w
        = Done (None, g, mkWorld (store w) (S (rng w)) (clk w))).
Proof.
  intros Hblocked.
  pose proof (unavailable_resource_blocks t (store w) Hblocked) as Hall.
  split.
  - unfold _execute_transition. rewrite Hall. reflexivity.
  - intros draws clock Hstart Hfire. unfold next_iteration.
    rewrite Hstart. simpl.
    destruct (should_start_false_enabled g Hstart) as (t0 & ts & Hen).
    rewrite Hen in *. rewrite Hfire. simpl.
    unfold _execute_transition. simpl. rewrite Hall. reflexivity.
Qed.

Lemma blocked_firing_skipped_witness :
  _execute_transition
    (mkGenerator robot_net m_P1 (Some m_P2) 100 0 0 false false "g" m_P1 0)
    (mkWorld exhausted_store 0 0) (Some T_robot)
  = Done (None,
          mkGenerator robot_net m_P1 (Some m_P2) 100 0 0 false false "g" m_P1 0,
          mkWorld exhausted_store 0 0).
Proof.
  apply (blocked_firing_skipped
           (mkGenerator robot_net m_P1 (Some m_P2) 100 0 0 false false "g" m_P1 0)
           (mkWorld exhausted_store 0 0) T_robot).
  exists "robot", (new_resource "robot" 0).
  split; [apply list_elem_of_singleton; reflexivity|].
  split; [reflexivity | simpl; lia].
Defined.

(** ** Batch playout with an unreachable final marking *)

Section Unreachable.

Variables (pn : SimPetriNet) (im : Marking) (cfg : PlayoutConfig).
Variables (draws : nat -> nat) (tfuel : nat).

Hypothesis gated : cfg_add_only_if_fm_is_reached cfg = true.

(** From a state with nothing accepted, [k] attempts to go and all of them
    rejected, the loop makes those attempts and gives up. *)
Lemma playout_loop_rejecting (k : nat) :
  forall (fuel : nat) (i : Z) (cur : nat),
    0 <= i <= no_traces cfg ->
    Z.to_nat (no_traces cfg - i) = k ->
    (k < fuel)%nat ->
    attempts_rejected k tfuel pn im cfg draws cur = true ->
    playout_loop fuel tfuel pn im cfg draws [] i cur
      = Done ([], no_traces cfg).
Proof.
  induction k as [|k IH]; intros fuel i cur Hi Hk Hfuel Hrej.
  - destruct fuel as [|fuel]; [lia|]. simpl.
    assert (i = no_traces cfg) as -> by lia.
    destruct (no_traces cfg <=? Z.of_nat 0) eqn:E0; [reflexivity|].
    rewrite gated. simpl.
    rewrite (proj2 (Z.leb_le _ _)) by lia. reflexivity.
  - destruct fuel as [|fuel]; [lia|]. simpl.
    rewrite (proj2 (Z.leb_gt _ _)) by lia.
    rewrite (proj2 (Z.leb_gt (no_traces cfg) i)) by lia. simpl.
    simpl in Hrej.
    destruct (execute_single_trace tfuel pn im (cfg_max_trace_length cfg)
                (cfg_final_marking cfg) (cfg_fm_leq_accepted cfg) draws cur)
      as [[[v m] cur']| |]; try discriminate. simpl.
    destruct (should_add_trace m (cfg_final_marking cfg)
                (cfg_add_only_if_fm_is_reached cfg) (cfg_fm_leq_accepted cfg))
      as [[|]| |]; try discriminate. simpl.
    apply IH; [lia | lia | lia | exact Hrej].
Qed.

End Unreachable.

Lemma playout_loop_no_traces (fuel tfuel : nat) (pn : SimPetriNet)
    (im : Marking) (cfg : PlayoutConfig) (draws : nat -> nat) :
  no_traces cfg = 0 ->
  playout_loop (S fuel) tfuel pn im cfg draws [] 0 0 = Done ([], 0).
Proof. intros H. simpl. rewrite H. reflexivity. Qed.

(** C4, as stated, fails: the playout that gave up on an unreachable final
    marking returns the very log a playout asked for no trace returns, so the
    caller cannot tell the two apart. *)
Lemma unreachable_not_surfaced :
  ~ (forall (pn : SimPetriNet) (im : Marking) (cfg cfg0 : PlayoutConfig)
            (draws : nat -> nat),
        cfg_add_only_if_fm_is_reached cfg = true ->
        0 < no_traces cfg ->
        playout_loop 10 10 pn im cfg draws [] 0 0 = Done ([], no_traces cfg) ->
        no_traces cfg0 = 0 ->
        playout_algorithm 10 10 pn im cfg draws
          <> playout_algorithm 10 10 pn im cfg0 draws).
Proof.
  intros H.
  apply (H line_net m_P1 (unreachable_cfg 1) (reachable_cfg 0) zero_draws).
  - reflexivity.
  - reflexivity.
  - vm_compute. reflexivity.
  - reflexivity.
  - vm_compute. reflexivity.
Qed.

(** C4, amended: under the reachability-gated policy, when the [no_traces]
    attempts the playout makes all end in a rejected marking, the playout
    stops after exactly those attempts instead of looping for ever, and
    returns the empty event log: the same value a playout asked for no trace
    returns, with nothing else to mark the final marking as unreachable. *)
Theorem unreachable_terminates (pn : SimPetriNet) (im : Marking)
    (cfg : PlayoutConfig) (draws : nat -> nat) (fuel tfuel : nat) :
  cfg_add_only_if_fm_is_reached cfg = true ->
  0 <= no_traces cfg ->
  (Z.to_nat (no_traces cfg) < fuel)%nat ->
  attempts_rejected (Z.to_nat (no_traces cfg)) tfuel pn im cfg draws 0 = true ->
  playout_loop fuel tfuel pn im cfg draws [] 0 0 = Done ([], no_traces cfg) /\
  playout_algorithm fuel tfuel pn im cfg draws = Done [] /\
  playout_algorithm fuel tfuel pn im (with_no_traces cfg 0) draws = Done [].
Proof.
  intros Hgated Hn Hfuel Hrej.
  assert (playout_loop fuel tfuel pn im cfg draws [] 0 0
          = Done ([], no_traces cfg)) as Hloop.
  { apply (playout_loop_rejecting pn im cfg draws tfuel Hgated
             (Z.to_nat (no_traces cfg))); [lia | f_equal; lia | done | done]. }
  split; [exact Hloop|]. split.
  - unfold playout_algorithm. rewrite Hloop. reflexivity.
  - unfold playout_algorithm. destruct fuel as [|fuel]; [lia|].
    rewrite playout_loop_no_traces by reflexivity. reflexivity.
Qed.

Lemma unreachable_terminates_witness :
  playout_loop 2 10 fork_net m_P1 (reachable_cfg 1) unlucky_draws [] 0 0
    = Done ([], no_traces (reachable_cfg 1)) /\
  playout_algorithm 2 10 fork_net m_P1 (reachable_cfg 1) unlucky_draws = Done [] /\
  playout_algorithm 2 10 fork_net m_P1
    (with_no_traces (reachable_cfg 1) 0) unlucky_draws = Done [].
Proof.
  apply (unreachable_terminates fork_net m_P1 (reachable_cfg 1) unlucky_draws 2 10).
  - reflexivity.
  - simpl. lia.
  - simpl. lia.
  - vm_compute. reflexivity.
Defined.

(** ** Replaying a run *)

Lemma done_inj {A : Type} (a b : A) : Done a = Done b -> a = b.
Proof. by intros [= ->]. Qed.

Section Replay.

Variable arrange : Arrangement.
Variable draws : nat -> nat.
Variables clock1 clock2 : nat -> Z.

(** One iteration of [__next__] from two states that differ at most in
    timestamp, prefix and clock position: the same outcome, up to those. *)
Lemma next_iteration_related (g1 g2 : Generator) (w1 w2 : World) :
  same_but_time (g1, w1) (g2, w2) ->
  blank_iteration <$> next_iteration_in arrange draws clock1 g1 w1
  = blank_iteration <$> next_iteration_in arrange draws clock2 g2 w2.
Proof.
  destruct g1 as [pn im fm mtl cid ts1 add leq pre1 cm vc].
  destruct g2 as [pn' im' fm' mtl' cid' ts2 add' leq' pre2 cm' vc'].
  destruct w1 as [st r c1], w2 as [st' r' c2].
  unfold same_but_time. simpl. intros (Hg & <- & <-).
  injection Hg as <- <- <- <- <- <- <- <- <-.
  unfold next_iteration_in, _should_start_new_trace, _handle_invalid_trace,
    _is_trace_acceptable, _handle_enabled_transition, _fire_transition_in,
    _execute_transition, _create_event, _start_new_trace, _initialize_trace,
    set_trace_state, py_eq.
  simpl.
  repeat (first
            [ reflexivity
            | case_match; simpl
            | match goal with
              | |- context [choice ?xs ?d] => destruct (choice xs d); simpl
              end ]).
Qed.

Lemma next_related (fuel : nat) :
  forall (g1 g2 : Generator) (w1 w2 : World),
    same_but_time (g1, w1) (g2, w2) ->
    blank_next <$> next_in arrange fuel draws clock1 g1 w1
    = blank_next <$> next_in arrange fuel draws clock2 g2 w2.
Proof.
  induction fuel as [|fuel IH]; intros g1 g2 w1 w2 Hrel; [reflexivity|].
  pose proof (next_iteration_related g1 g2 w1 w2 Hrel) as Hit.
  cbn [next_in].
  destruct (next_iteration_in arrange draws clock1 g1 w1) as [[[e1 g1'] w1']| |],
           (next_iteration_in arrange draws clock2 g2 w2) as [[[e2 g2'] w2']| |];
    try discriminate Hit; try reflexivity.
  apply done_inj in Hit. unfold blank_iteration in Hit.
  apply pair_equal_spec in Hit as [Hit Hr].
  apply pair_equal_spec in Hit as [Hit Hs].
  apply pair_equal_spec in Hit as [He Hg].
  destruct e1 as [e1|], e2 as [e2|]; try discriminate He.
  - apply (inj Some) in He.
    change (Done (blank_next (e1, g1', w1')) = Done (blank_next (e2, g2', w2'))).
    unfold blank_next. by rewrite He, Hg, Hs, Hr.
  - apply IH. by repeat split.
Qed.

Lemma generate_related (fuel n : nat) :
  forall (g1 g2 : Generator) (w1 w2 : World),
    same_but_time (g1, w1) (g2, w2) ->
    fmap (M := list) event_core <$> generate_in arrange fuel n draws clock1 g1 w1
    = fmap (M := list) event_core <$> generate_in arrange fuel n draws clock2 g2 w2.
Proof.
  induction n as [|n IH]; intros g1 g2 w1 w2 Hrel; [reflexivity|].
  pose proof (next_related fuel g1 g2 w1 w2 Hrel) as Hnx.
  cbn [generate_in].
  destruct (next_in arrange fuel draws clock1 g1 w1) as [[[e1 g1'] w1']| |],
           (next_in arrange fuel draws clock2 g2 w2) as [[[e2 g2'] w2']| |];
    try discriminate Hnx; try reflexivity.
  apply done_inj in Hnx. unfold blank_next in Hnx.
  apply pair_equal_spec in Hnx as [Hnx Hr].
  apply pair_equal_spec in Hnx as [Hnx Hs].
  apply pair_equal_spec in Hnx as [He Hg].
  assert (same_but_time (g1', w1') (g2', w2')) as Hrel' by by repeat split.
  specialize (IH g1' g2' w1' w2' Hrel').
  change (fmap (M := list) event_core
            <$> (generate_in arrange fuel n draws clock1 g1' w1'
                   ≫= fun es => Done (e1 :: es))
          = fmap (M := list) event_core
              <$> (generate_in arrange fuel n draws clock2 g2' w2'
                     ≫= fun es => Done (e2 :: es))).
  destruct (generate_in arrange fuel n draws clock1 g1' w1') as [es1| |],
           (generate_in arrange fuel n draws clock2 g2' w2') as [es2| |];
    try discriminate IH; try reflexivity.
  apply done_inj in IH.
  change (Done (event_core e1 :: (event_core <$> es1))
          = Done (event_core e2 :: (event_core <$> es2))).
  by rewrite He, IH.
Qed.

End Replay.

Section AsGiven.

Variables (draws : nat -> nat) (clock : nat -> Z).

(** With the candidates listed as the embedding lists them, the runs with
    an explicit order are the runs of [__next__] as embedded above. *)
Lemma next_iteration_as_given (g : Generator) (w : World) :
  next_iteration_in listed_as_given draws clock g w
  = next_iteration draws clock g w.
Proof.
  unfold next_iteration_in, next_iteration, _fire_transition_in,
    listed_as_given.
  destruct (if _should_start_new_trace g then _ else _)
    as [[[again g1] w1]| |]; simpl; try reflexivity.
  destruct again; [reflexivity|].
  destruct (_handle_enabled_transition g1) as [|t0 ts]; [reflexivity|].
  by rewrite fire_transition_candidates.
Qed.

Lemma next_as_given (fuel : nat) (g : Generator) (w : World) :
  next_in listed_as_given fuel draws clock g w = next fuel draws clock g w.
Proof.
  revert g w. induction fuel as [|fuel IH]; intros g w; [reflexivity|].
  simpl. rewrite next_iteration_as_given.
  destruct (next_iteration draws clock g w) as [[[[e|] g'] w']| |];
    simpl; auto.
Qed.

Lemma generate_as_given (fuel n : nat) (g : Generator) (w : World) :
  generate_in listed_as_given fuel n draws clock g w
  = generate fuel n draws clock g w.
Proof.
  revert g w. induction n as [|n IH]; intros g w; [reflexivity|].
  simpl. rewrite next_as_given.
  destruct (next fuel draws clock g w) as [[[e g'] w']| |];
    simpl; try reflexivity.
  by rewrite IH.
Qed.

End AsGiven.




(** * Further properties of the semantics *)

Section TokenCounts.

Implicit Types (m : Marking) (a : Arc) (p : string).

Lemma produce_all_count (as_ : list Arc) m p :
  count (foldl produce m as_) p = count m p + arc_weight_at target as_ p.
Proof.
  unfold count at 1. rewrite produce_all_lookup.
  case_bool_decide as Hin; [reflexivity|].
  rewrite (arc_weight_at_notin target as_ p Hin). unfold count. lia.
Qed.

Lemma consume_all_count (as_ : list Arc) m p :
  count (foldl consume m as_) p = count m p - arc_weight_at source as_ p.
Proof.
  unfold count at 1. rewrite consume_all_lookup.
  case_bool_decide as Hin; [apply count_nonzero|].
  rewrite (arc_weight_at_notin source as_ p Hin). unfold count. lia.
Qed.

Lemma arc_weight_at_nonneg (endp : Arc -> string) (as_ : list Arc) p :
  Forall (fun a => 0 <= weight a) as_ -> 0 <= arc_weight_at endp as_ p.
Proof.
  induction 1 as [|a as_ Ha _ IH]; [done|].
  rewrite arc_weight_at_cons. destruct (decide (endp a = p)); lia.
Qed.

(** With pairwise distinct source places, what the arcs take from a place is
    what its one arc checked against the marking. *)
Lemma arc_weight_at_enough (as_ : list Arc) m p :
  NoDup (source <$> as_) ->
  Forall (fun a => weight a <= count m (source a)) as_ ->
  0 <= count m p ->
  arc_weight_at source as_ p <= count m p.
Proof.
  induction as_ as [|a as_ IH]; intros Hnd Hall Hp; [done|].
  rewrite fmap_cons in Hnd. apply NoDup_cons in Hnd as [Hnotin Hnd].
  apply Forall_cons in Hall as [Ha Hall].
  rewrite arc_weight_at_cons. destruct (decide (source a = p)) as [<-|Hne].
  - rewrite (arc_weight_at_notin source as_ (source a) Hnotin). lia.
  - specialize (IH Hnd Hall Hp). lia.
Qed.

Lemma weak_consume_count m a p :
  count (weak_consume m a) p =
  if decide (p = source a) then Z.max 0 (count m p - weight a) else count m p.
Proof.
  unfold count at 1. rewrite weak_consume_lookup.
  destruct (decide (p = source a)) as [->|Hne]; [|reflexivity].
  destruct (count m (source a) - weight a <=? 0) eqn:E; simpl.
  - apply Z.leb_le in E. lia.
  - apply Z.leb_gt in E. lia.
Qed.

Lemma weak_consume_all_count (as_ : list Arc) m p :
  NoDup (source <$> as_) ->
  count (foldl weak_consume m as_) p =
  if bool_decide (p ∈ (source <$> as_))
  then Z.max 0 (count m p - arc_weight_at source as_ p)
  else count m p.
Proof.
  revert m. induction as_ as [|a as_ IH]; intros m Hnd.
  - rewrite bool_decide_eq_false_2; [done | apply not_elem_of_nil].
  - rewrite fmap_cons in Hnd. apply NoDup_cons in Hnd as [Hnotin Hnd].
    change (foldl weak_consume m (a :: as_))
      with (foldl weak_consume (weak_consume m a) as_).
    rewrite (IH _ Hnd), weak_consume_count, arc_weight_at_cons, fmap_cons.
    destruct (decide (p = source a)) as [->|Hne].
    + rewrite (bool_decide_eq_false_2 _ Hnotin).
      rewrite bool_decide_eq_true_2 by (apply elem_of_cons; by left).
      rewrite decide_True by done.
      rewrite (arc_weight_at_notin source as_ (source a) Hnotin).
      f_equal. lia.
    + rewrite decide_False by done.
      destruct (bool_decide (p ∈ source <$> as_)) eqn:E.
      * apply bool_decide_eq_true in E.
        rewrite bool_decide_eq_true_2 by (apply elem_of_cons; by right).
        f_equal.
      * apply bool_decide_eq_false in E.
        rewrite bool_decide_eq_false_2; [done|].
        intros H. apply elem_of_cons in H as [H|H]; [done | by apply E].
Qed.

(** After the first loop of [weak_execute], a place some arc consumed from is
    absent or holds a positive count. *)
Lemma weak_consume_all_positive (as_ : list Arc) m p :
  p ∈ (source <$> as_) ->
  match foldl weak_consume m as_ !! p with
  | Some v => 0 < v
  | None => True
  end.
Proof.
  induction as_ as [|a as_ IH] using rev_ind; intros Hin.
  - by apply not_elem_of_nil in Hin.
  - rewrite foldl_app. simpl. rewrite weak_consume_lookup.
    destruct (decide (p = source a)) as [->|Hne].
    + destruct (_ <=? 0) eqn:E; [done|]. apply Z.leb_gt in E. lia.
    + apply IH. rewrite fmap_app in Hin.
      apply elem_of_app in Hin as [Hin|Hin]; [done|].
      simpl in Hin. apply list_elem_of_singleton in Hin. done.
Qed.

End TokenCounts.

(** X1: the transitions [enabled_transitions] returns are exactly the
    transitions of the net that [is_enabled] accepts, and [execute] fires every
    one of them. *)
Theorem enabled_transitions_fire (pn : SimPetriNet) (m : Marking) (t : SimTransition) :
  (t ∈ enabled_transitions pn m <->
   t ∈ transitions pn /\ is_enabled t pn m = true) /\
  (t ∈ enabled_transitions pn m -> exists m', execute t pn m = Some m').
Proof.
  unfold enabled_transitions. rewrite list_elem_of_filter. split; [tauto|].
  intros [E _]. eexists. apply (execute_enabled _ _ _ E).
Qed.

Lemma enabled_transitions_fire_witness :
  exists m', execute T_A line_net m_P1 = Some m'.
Proof.
  apply (enabled_transitions_fire line_net m_P1 T_A).
  vm_compute. apply list_elem_of_singleton. reflexivity.
Defined.

(** X2: a firing changes the count of every place by what the outgoing arcs
    to it carry minus what the incoming arcs from it carry, parallel arcs
    included. *)
Theorem execute_token_equation (t : SimTransition) (pn : SimPetriNet)
    (m m' : Marking) (p : string) :
  execute t pn m = Some m' ->
  count m' p = count m p - arc_weight_at source (in_arcs t) p
                         + arc_weight_at target (out_arcs t) p.
Proof.
  unfold execute. destruct (is_enabled t pn m); [|discriminate].
  simpl. intros [= <-]. by rewrite produce_all_count, consume_all_count.
Qed.

Lemma execute_token_equation_witness :
  count {[ "P1" := -1 ]} "P1"
  = count m_P1 "P1" - arc_weight_at source (in_arcs T_double) "P1"
                    + arc_weight_at target (out_arcs T_double) "P1".
Proof.
  apply (execute_token_equation T_double double_net m_P1 {[ "P1" := -1 ]} "P1").
  vm_compute. reflexivity.
Defined.

(** X3: when the incoming arcs of an enabled transition have pairwise
    distinct source places and no outgoing arc has a negative weight, firing
    it from a marking without negative counts reaches a marking without
    negative counts. *)
Theorem execute_keeps_nonneg (t : SimTransition) (pn : SimPetriNet)
    (m m' : Marking) :
  NoDup (source <$> in_arcs t) ->
  Forall (fun a => 0 <= weight a) (out_arcs t) ->
  (forall p, 0 <= count m p) ->
  execute t pn m = Some m' ->
  forall p, 0 <= count m' p.
Proof.
  intros Hnd Hout Hm Hex p.
  assert (is_enabled t pn m = true) as E.
  { unfold execute in Hex. by destruct (is_enabled t pn m). }
  rewrite (execute_enabled _ _ _ E) in Hex. injection Hex as <-.
  rewrite produce_all_count, consume_all_count.
  pose proof (arc_weight_at_enough (in_arcs t) m p Hnd
                (is_enabled_tokens _ _ _ E) (Hm p)).
  pose proof (arc_weight_at_nonneg target (out_arcs t) p Hout). lia.
Qed.

Lemma execute_keeps_nonneg_witness : 0 <= count m_P2 "P2".
Proof.
  refine (execute_keeps_nonneg T_A line_net m_P1 m_P2 _ _ _ _ "P2").
  - apply NoDup_singleton.
  - repeat constructor. simpl. lia.
  - intros p. unfold count, m_P1.
    destruct (decide (p = "P1")) as [->|Hne].
    + rewrite lookup_singleton_eq. simpl. lia.
    + rewrite lookup_singleton_ne by done. simpl. lia.
  - vm_compute. reflexivity.
Defined.

(** X4: enabledness is monotone in the marking: a transition enabled in a
    marking stays enabled in every marking with at least as many tokens on
    every place. *)
Theorem is_enabled_monotone (t : SimTransition) (pn : SimPetriNet)
    (m m' : Marking) :
  (forall p, count m p <= count m' p) ->
  is_enabled t pn m = true -> is_enabled t pn m' = true.
Proof.
  intros Hle. unfold is_enabled. destruct (transition_in t pn); [|done].
  rewrite !enough_tokens_iff. intros Hall.
  eapply Forall_impl; [exact Hall|].
  intros a Ha. simpl in Ha. specialize (Hle (source a)). lia.
Qed.

Lemma is_enabled_monotone_witness :
  is_enabled T_A line_net {[ "P1" := 2 ]} = true.
Proof.
  apply (is_enabled_monotone T_A line_net m_P1 {[ "P1" := 2 ]}).
  - intros p. unfold count, m_P1.
    destruct (decide (p = "P1")) as [->|Hne].
    + rewrite !lookup_singleton_eq. simpl. lia.
    + rewrite !lookup_singleton_ne by done. simpl. lia.
  - vm_compute. reflexivity.
Defined.

(** X5: [weak_execute] never leaves a zero or negative count on a place it
    consumed from: such a place, unless an outgoing arc refills it, is absent
    from the result or holds a positive count. *)
Theorem weak_execute_input_places (t : SimTransition) (pn : SimPetriNet)
    (m : Marking) (p : string) :
  p ∈ (source <$> in_arcs t) ->
  p ∉ (target <$> out_arcs t) ->
  match weak_execute t pn m !! p with
  | Some v => 0 < v
  | None => True
  end.
Proof.
  intros Hs Ht. unfold weak_execute. rewrite produce_all_lookup.
  rewrite bool_decide_eq_false_2 by done.
  by apply weak_consume_all_positive.
Qed.

Lemma weak_execute_input_places_witness :
  match weak_execute T_double double_net m_P1 !! "P1" with
  | Some v => 0 < v
  | None => True
  end.
Proof.
  apply (weak_execute_input_places T_double double_net m_P1 "P1").
  - simpl. apply elem_of_cons. by left.
  - simpl. apply not_elem_of_nil.
Defined.

(** X6: with pairwise distinct source places, [weak_execute] takes from each
    source place the weight of its arc, stopping at 0 when the place holds
    less, and adds to each place what the outgoing arcs to it carry. *)
Theorem weak_execute_saturates (t : SimTransition) (pn : SimPetriNet)
    (m : Marking) (p : string) :
  NoDup (source <$> in_arcs t) ->
  count (weak_execute t pn m) p =
  (if bool_decide (p ∈ (source <$> in_arcs t))
   then Z.max 0 (count m p - arc_weight_at source (in_arcs t) p)
   else count m p)
  + arc_weight_at target (out_arcs t) p.
Proof.
  intros Hnd. unfold weak_execute.
  by rewrite produce_all_count, weak_consume_all_count.
Qed.

Lemma weak_execute_saturates_witness :
  count (weak_execute T_A line_net ∅) "P1" =
  (if bool_decide ("P1" ∈ (source <$> in_arcs T_A))
   then Z.max 0 (count ∅ "P1" - arc_weight_at source (in_arcs T_A) "P1")
   else count ∅ "P1")
  + arc_weight_at target (out_arcs T_A) "P1".
Proof.
  apply (weak_execute_saturates T_A line_net ∅ "P1"). apply NoDup_singleton.
Defined.

(** X7: acquire and release undo each other on the count: releasing after a
    successful acquire, or acquiring after a release on a resource with no
    negative count, gives back the count and capacity there were. *)
Theorem acquire_release_round_trip (r : BaseResource) (t : Z) :
  (is_available r = true ->
   (acquire r).1 = true /\
   available (release t (acquire r).2) = available r /\
   capacity (release t (acquire r).2) = capacity r) /\
  (0 <= available r ->
   (acquire (release t r)).1 = true /\
   available (acquire (release t r)).2 = available r /\
   capacity (acquire (release t r)).2 = capacity r).
Proof.
  split.
  - intros Hav. unfold acquire. rewrite Hav. simpl. repeat split; lia.
  - intros H0. unfold acquire, is_available. simpl.
    rewrite (proj2 (Z.ltb_lt _ _)) by lia. simpl. repeat split; lia.
Qed.

Lemma acquire_release_round_trip_witness :
  (acquire RobotArm).1 = true /\
  available (release 5 (acquire RobotArm).2) = available RobotArm /\
  capacity (release 5 (acquire RobotArm).2) = capacity RobotArm.
Proof.
  apply (proj1 (acquire_release_round_trip RobotArm 5)). reflexivity.
Defined.

(** * Further properties of batch playout *)

Lemma choice_nonempty {A : Type} (x0 : A) (xs : list A) (d : nat) :
  exists x, choice (x0 :: xs) d = Done x /\ x ∈ x0 :: xs.
Proof.
  unfold choice.
  assert (d mod length (x0 :: xs) < length (x0 :: xs))%nat as Hlt
      by (apply Nat.mod_upper_bound; simpl; lia).
  apply lookup_lt_is_Some_2 in Hlt as [x Hx].
  exists x. rewrite Hx. split; [done|]. apply list_elem_of_lookup. eauto.
Qed.

(** A draw among enabled transitions returns the stop option or a transition
    that [execute] fires. *)
Lemma select_transition_enabled (pn : SimPetriNet) (m : Marking)
    (fm : option Marking) (leq : bool) (d : nat) (t0 : SimTransition)
    (ts : list SimTransition) :
  enabled_transitions pn m = t0 :: ts ->
  exists x, select_transition (t0 :: ts) fm m leq d = Done x /\
            match x with
            | Some t => t ∈ transitions pn /\ is_enabled t pn m = true
            | None => True
            end.
Proof.
  intros Hen. unfold select_transition, with_stop.
  assert (forall t, t ∈ t0 :: ts -> t ∈ transitions pn /\ is_enabled t pn m = true)
    as Hmem.
  { intros t Ht. rewrite <- Hen in Ht. unfold enabled_transitions in Ht.
    apply list_elem_of_filter in Ht. tauto. }
  destruct (may_stop fm m leq).
  - rewrite fmap_cons. simpl.
    destruct (choice_nonempty (Some t0) ((Some <$> ts) ++ [None]) d)
      as (x & Hx & Hin).
    exists x. split; [exact Hx|]. destruct x as [t|]; [|done].
    apply Hmem. rewrite app_comm_cons, elem_of_app in Hin.
    destruct Hin as [Hin|Hin].
    + rewrite <- fmap_cons in Hin. apply list_elem_of_fmap in Hin as (t' & [= ->] & Ht').
      exact Ht'.
    + apply list_elem_of_singleton in Hin. discriminate.
  - rewrite fmap_cons.
    destruct (choice_nonempty (Some t0) (Some <$> ts) d) as (x & Hx & Hin).
    exists x. split; [exact Hx|]. destruct x as [t|]; [|done].
    apply Hmem. rewrite <- fmap_cons in Hin.
    apply list_elem_of_fmap in Hin as (t' & [= ->] & Ht'). exact Ht'.
Qed.

Section TraceLoop.

Variables (pn : SimPetriNet) (mtl : Z) (fm : option Marking) (leq : bool).
Variable draws : nat -> nat.

Lemma trace_loop_not_raised (fuel : nat) :
  forall visited visible (m : Marking) (cur : nat),
    trace_loop fuel pn mtl fm leq draws visited visible m cur <> Raised.
Proof.
  induction fuel as [|fuel IH]; intros visited visible m cur; [discriminate|].
  simpl. destruct (Z.of_nat (length visible) <? mtl); [|discriminate].
  destruct (enabled_transitions pn m) as [|t0 ts] eqn:Hen; [discriminate|].
  destruct (select_transition_enabled pn m fm leq (draws cur) t0 ts Hen)
    as (x & Hx & Hok).
  rewrite Hx. simpl. destruct x as [t|]; [|discriminate].
  destruct Hok as [_ E]. rewrite (execute_enabled _ _ _ E). apply IH.
Qed.

Lemma trace_loop_finishes (fuel : nat) :
  (forall t, t ∈ transitions pn -> label t <> None) ->
  forall visited visible (m : Marking) (cur : nat),
    (Z.to_nat (mtl - Z.of_nat (length visible)) < fuel)%nat ->
    exists r, trace_loop fuel pn mtl fm leq draws visited visible m cur = Done r.
Proof.
  intros Hlab. induction fuel as [|fuel IH]; intros visited visible m cur Hf;
    [lia|].
  simpl. destruct (Z.of_nat (length visible) <? mtl) eqn:Hlt; [|eauto].
  apply Z.ltb_lt in Hlt.
  destruct (enabled_transitions pn m) as [|t0 ts] eqn:Hen; [eauto|].
  destruct (select_transition_enabled pn m fm leq (draws cur) t0 ts Hen)
    as (x & Hx & Hok).
  rewrite Hx. simpl. destruct x as [t|]; [|eauto].
  destruct Hok as [Hin E]. rewrite (execute_enabled _ _ _ E).
  destruct (label t) as [l|] eqn:Hl; [|by apply Hlab in Hin].
  apply IH. rewrite length_app. simpl. lia.
Qed.

(** What a finished loop returns: the sequence it was given followed by what
    it visited, whose transitions lead from the marking it started in to the
    marking it returns, and no more visible transitions than the bound
    allows. *)
Lemma trace_loop_result (fuel : nat) :
  forall visited visible (m : Marking) (cur : nat) v' m' cur',
    trace_loop fuel pn mtl fm leq draws visited visible m cur
      = Done (v', m', cur') ->
    exists suffix,
      v' = visited ++ suffix /\
      replay pn (fired suffix) m = Some m' /\
      Z.of_nat (length visible + length (labels (fired suffix)))
        <= Z.max (Z.of_nat (length visible)) mtl /\
      (cur <= cur')%nat.
Proof.
  induction fuel as [|fuel IH]; intros visited visible m cur v' m' cur' Hrun;
    [discriminate|].
  simpl in Hrun. destruct (Z.of_nat (length visible) <? mtl) eqn:Hlt.
  - apply Z.ltb_lt in Hlt.
    destruct (enabled_transitions pn m) as [|t0 ts] eqn:Hen.
    + injection Hrun as <- <- <-. exists [VMarking m].
      repeat split; simpl; lia.
    + destruct (select_transition (t0 :: ts) fm m leq (draws cur))
        as [[t|]| |]; simpl in Hrun; try discriminate.
      * destruct (execute t pn m) as [m1|] eqn:Hex; [|discriminate].
        apply IH in Hrun as (suffix & -> & Hrep & Hlen & Hcur).
        exists (VMarking m :: VTrans t :: suffix).
        split; [by rewrite <- !app_assoc|].
        split; [simpl; by rewrite Hex|].
        split; [|lia]. simpl. unfold labels in *. simpl.
        destruct (label t); simpl in *.
        -- rewrite length_app in Hlen. simpl in Hlen. lia.
        -- lia.
      * injection Hrun as <- <- <-. exists [VMarking m].
        repeat split; simpl; lia.
  - injection Hrun as <- <- <-. exists [].
    rewrite app_nil_r. repeat split; simpl; lia.
Qed.

End TraceLoop.

(** X8: [execute_single_trace] never raises: every transition it fires was
    drawn from the enabled ones. *)
Theorem execute_single_trace_no_error (fuel : nat) (pn : SimPetriNet)
    (im : Marking) (mtl : Z) (fm : option Marking) (leq : bool)
    (draws : nat -> nat) (cur : nat) :
  execute_single_trace fuel pn im mtl fm leq draws cur <> Raised.
Proof. apply trace_loop_not_raised. Qed.

(** X9: on a net all of whose transitions carry a label, the loop of
    [execute_single_trace] ends within [max_trace_length + 1] iterations. *)
Theorem execute_single_trace_terminates (fuel : nat) (pn : SimPetriNet)
    (im : Marking) (mtl : Z) (fm : option Marking) (leq : bool)
    (draws : nat -> nat) (cur : nat) :
  (forall t, t ∈ transitions pn -> label t <> None) ->
  (Z.to_nat mtl < fuel)%nat ->
  exists v m cur',
    execute_single_trace fuel pn im mtl fm leq draws cur = Done (v, m, cur').
Proof.
  intros Hlab Hf.
  destruct (trace_loop_finishes pn mtl fm leq draws fuel Hlab [] [] im cur)
    as [[[v m] cur'] Hr]; [simpl; lia | eauto].
Qed.

Lemma execute_single_trace_terminates_witness :
  exists v m cur',
    execute_single_trace 4 loop_net m_P1 3 None false zero_draws 0
    = Done (v, m, cur').
Proof.
  apply (execute_single_trace_terminates 4 loop_net m_P1 3 None false zero_draws 0).
  - intros t Ht. apply list_elem_of_singleton in Ht. subst t. discriminate.
  - simpl. lia.
Defined.

(** X10: a trace returned by [execute_single_trace] has at most
    [max_trace_length] visible transitions (none when the bound is not
    positive), and the draws it consumed are counted forwards. *)
Theorem execute_single_trace_bound (fuel : nat) (pn : SimPetriNet)
    (im : Marking) (mtl : Z) (fm : option Marking) (leq : bool)
    (draws : nat -> nat) (cur : nat) v m cur' :
  execute_single_trace fuel pn im mtl fm leq draws cur = Done (v, m, cur') ->
  Z.of_nat (length (labels (fired v))) <= Z.max 0 mtl /\ (cur <= cur')%nat.
Proof.
  intros Hrun. apply trace_loop_result in Hrun as (suffix & -> & _ & Hlen & Hcur).
  simpl in *. split; [lia | done].
Qed.

Lemma execute_single_trace_bound_witness :
  Z.of_nat (length (labels (fired
     [VMarking m_P1; VTrans T_loop; VMarking m_P1; VTrans T_loop]))) <= Z.max 0 2
  /\ (0 <= 2)%nat.
Proof.
  apply (execute_single_trace_bound 5 loop_net m_P1 2 None false zero_draws 0
           _ m_P1 2%nat).
  vm_compute. reflexivity.
Defined.

(** X11: the marking [execute_single_trace] returns is the one reached by
    firing, from the initial marking, the transitions it visited in the order
    it visited them. *)
Theorem execute_single_trace_replay (fuel : nat) (pn : SimPetriNet)
    (im : Marking) (mtl : Z) (fm : option Marking) (leq : bool)
    (draws : nat -> nat) (cur : nat) v m cur' :
  execute_single_trace fuel pn im mtl fm leq draws cur = Done (v, m, cur') ->
  replay pn (fired v) im = Some m.
Proof.
  intros Hrun. apply trace_loop_result in Hrun as (suffix & -> & Hrep & _).
  exact Hrep.
Qed.

Lemma execute_single_trace_replay_witness :
  replay line_net (fired [VMarking m_P1; VTrans T_A; VMarking m_P2]) m_P1
  = Some m_P2.
Proof.
  apply (execute_single_trace_replay 5 line_net m_P1 100 (Some m_P2) false
           zero_draws 0 _ m_P2 1%nat).
  vm_compute. reflexivity.
Defined.

Section EventLogFacts.

Lemma convert_trace_activities (v : list Visited) (ts : Z) :
  log_activity <$> (convert_trace v ts).1 = labels (fired v).
Proof.
  revert ts. induction v as [|[m|t] v IH]; intros ts; simpl; [done | apply IH |].
  unfold labels. simpl. destruct (label t) as [l|]; [|apply IH].
  specialize (IH (ts + duration t)).
  destruct (convert_trace v (ts + duration t)) as [evs ts']. simpl in *.
  f_equal. exact IH.
Qed.

Lemma convert_trace_times (v : list Visited) (ts : Z) :
  Forall (fun t => 0 <= duration t) (fired v) ->
  ts <= (convert_trace v ts).2 /\
  Forall (fun x => ts <= x <= (convert_trace v ts).2)
         (log_timestamp <$> (convert_trace v ts).1) /\
  StronglySorted Z.le (log_timestamp <$> (convert_trace v ts).1).
Proof.
  revert ts. induction v as [|[m|t] v IH]; intros ts Hd; simpl.
  - repeat split; [lia | constructor | constructor].
  - by apply IH.
  - simpl in Hd. apply Forall_cons in Hd as [Ht Hd].
    destruct (label t) as [l|]; [|by apply IH].
    specialize (IH (ts + duration t) Hd).
    destruct (convert_trace v (ts + duration t)) as [evs ts']. simpl in *.
    destruct IH as (Hle & Hall & Hsorted).
    split; [lia|]. split.
    + constructor; [lia|]. eapply Forall_impl; [exact Hall|].
      intros x Hx. simpl in Hx. lia.
    + constructor; [done|]. eapply Forall_impl; [exact Hall|].
      intros x Hx. simpl in Hx. lia.
Qed.

Lemma convert_traces_length (vs : list (list Visited)) (idx cid ts : Z) :
  length (convert_traces vs idx cid ts) = length vs.
Proof.
  revert idx ts. induction vs as [|v vs IH]; intros idx ts; simpl; [done|].
  destruct (convert_trace v ts) as [evs ts']. simpl. by rewrite IH.
Qed.

Lemma convert_traces_lookup (vs : list (list Visited)) (cid : Z) :
  forall (idx ts : Z) (i : nat) (tr : Trace),
    convert_traces vs idx cid ts !! i = Some tr ->
    trace_case_id tr = idx + Z.of_nat i + cid /\
    exists v, vs !! i = Some v /\
              log_activity <$> trace_events tr = labels (fired v).
Proof.
  induction vs as [|v vs IH]; intros idx ts i tr Hi; simpl in Hi; [done|].
  pose proof (convert_trace_activities v ts) as Hact.
  destruct (convert_trace v ts) as [evs ts']. simpl in Hact.
  destruct i as [|i]; simpl in Hi.
  - injection Hi as <-. simpl. split; [lia|]. exists v. by split.
  - apply IH in Hi as [Hid Hv]. split; [lia|]. exact Hv.
Qed.

Lemma convert_traces_times (vs : list (list Visited)) (cid : Z) :
  Forall (fun v => Forall (fun t => 0 <= duration t) (fired v)) vs ->
  forall idx ts,
    Forall (Z.le ts) (log_timestamps (convert_traces vs idx cid ts)) /\
    StronglySorted Z.le (log_timestamps (convert_traces vs idx cid ts)).
Proof.
  induction 1 as [|v vs Hv _ IH]; intros idx ts; simpl.
  - split; constructor.
  - destruct (convert_trace_times v ts Hv) as (Hle & Hall & Hsorted).
    destruct (convert_trace v ts) as [evs ts']. simpl in *.
    destruct (IH (idx + 1) ts') as [Hge Hs].
    unfold log_timestamps in *. simpl. split.
    + apply Forall_app. split.
      * eapply Forall_impl; [exact Hall|]. intros x Hx. simpl in Hx. lia.
      * eapply Forall_impl; [exact Hge|]. intros x Hx. simpl in Hx. lia.
    + apply StronglySorted_app_2; [|done|done].
      intros x1 x2 H1 H2. rewrite Forall_forall in Hall, Hge.
      specialize (Hall x1 H1). specialize (Hge x2 H2). simpl in *. lia.
Qed.

End EventLogFacts.

(** X12: [convert_to_event_log] returns one trace per visited sequence, in
    order; the case ids count up from the initial case id, and a trace lists
    the labels of the visible transitions of its sequence in firing order. *)
Theorem convert_to_event_log_traces (vs : list (list Visited))
    (ts cid : Z) :
  length (convert_to_event_log vs ts cid) = length vs /\
  forall (i : nat) (tr : Trace),
    convert_to_event_log vs ts cid !! i = Some tr ->
    trace_case_id tr = cid + Z.of_nat i /\
    exists v, vs !! i = Some v /\
              log_activity <$> trace_events tr = labels (fired v).
Proof.
  unfold convert_to_event_log. split; [apply convert_traces_length|].
  intros i tr Hi. apply convert_traces_lookup in Hi as [Hid Hv].
  split; [lia | exact Hv].
Qed.

Lemma convert_to_event_log_traces_witness :
  trace_case_id (mkTrace 8 [mkLogEvent "A" 10]) = 7 + Z.of_nat 1 /\
  exists v, [[VMarking m_P1]; [VTrans T_A]] !! 1%nat = Some v /\
            log_activity <$> trace_events (mkTrace 8 [mkLogEvent "A" 10])
            = labels (fired v).
Proof.
  apply (convert_to_event_log_traces [[VMarking m_P1]; [VTrans T_A]] 0 7).
  reflexivity.
Defined.

(** X13: when no fired transition has a negative duration, the timestamps of
    the log never go back, from one event to the next and from one trace to
    the next, and none is earlier than the initial timestamp. *)
Theorem convert_to_event_log_times (vs : list (list Visited)) (ts cid : Z) :
  Forall (fun v => Forall (fun t => 0 <= duration t) (fired v)) vs ->
  StronglySorted Z.le (log_timestamps (convert_to_event_log vs ts cid)) /\
  Forall (Z.le ts) (log_timestamps (convert_to_event_log vs ts cid)).
Proof.
  intros Hd. unfold convert_to_event_log.
  destruct (convert_traces_times vs cid Hd 0 ts) as [Hge Hs]. by split.
Qed.

Lemma convert_to_event_log_times_witness :
  StronglySorted Z.le
    (log_timestamps (convert_to_event_log [[VTrans T_A]; [VTrans T_loop]] 0 0)) /\
  Forall (Z.le 0)
    (log_timestamps (convert_to_event_log [[VTrans T_A]; [VTrans T_loop]] 0 0)).
Proof.
  apply (convert_to_event_log_times [[VTrans T_A]; [VTrans T_loop]] 0 0).
  repeat constructor; simpl; lia.
Defined.

Section PlayoutCount.

Variables (pn : SimPetriNet) (im : Marking) (cfg : PlayoutConfig).
Variables (draws : nat -> nat) (tfuel : nat).

Lemma playout_loop_at_most (fuel : nat) :
  forall all_visited (i : Z) (cur : nat) all' i',
    Z.of_nat (length all_visited) <= Z.max 0 (no_traces cfg) ->
    playout_loop fuel tfuel pn im cfg draws all_visited i cur = Done (all', i') ->
    Z.of_nat (length all') <= Z.max 0 (no_traces cfg).
Proof.
  induction fuel as [|fuel IH]; intros all_visited i cur all' i' Hlen Hrun;
    [discriminate|].
  simpl in Hrun.
  destruct (no_traces cfg <=? Z.of_nat (length all_visited)) eqn:E1;
    [by injection Hrun as <- <-|].
  apply Z.leb_gt in E1.
  destruct (_ && _); [by injection Hrun as <- <-|].
  destruct (execute_single_trace _ _ _ _ _ _ _ _) as [[[v m] cur']| |];
    simpl in Hrun; try discriminate.
  destruct (should_add_trace _ _ _ _) as [add| |]; simpl in Hrun;
    try discriminate.
  apply IH in Hrun; [done|].
  destruct add; [|done]. rewrite length_app. simpl. lia.
Qed.

Hypothesis ungated : cfg_add_only_if_fm_is_reached cfg = false.
Hypothesis labelled : forall t, t ∈ transitions pn -> label t <> None.
Hypothesis enough : (Z.to_nat (cfg_max_trace_length cfg) < tfuel)%nat.

Lemma playout_loop_exact (fuel : nat) :
  forall all_visited (i : Z) (cur : nat),
    Z.of_nat (length all_visited) = i ->
    i <= no_traces cfg ->
    (Z.to_nat (no_traces cfg - i) < fuel)%nat ->
    exists all' i',
      playout_loop fuel tfuel pn im cfg draws all_visited i cur
        = Done (all', i') /\
      Z.of_nat (length all') = no_traces cfg.
Proof.
  induction fuel as [|fuel IH]; intros all_visited i cur Hi Hle Hf; [lia|].
  simpl.
  destruct (no_traces cfg <=? Z.of_nat (length all_visited)) eqn:E1.
  - apply Z.leb_le in E1. eexists _, _. split; [reflexivity | lia].
  - apply Z.leb_gt in E1.
    rewrite (proj2 (Z.leb_gt (no_traces cfg) i)) by lia. simpl.
    destruct (trace_loop_finishes pn (cfg_max_trace_length cfg)
                (cfg_final_marking cfg) (cfg_fm_leq_accepted cfg) draws tfuel
                labelled [] [] im cur) as [[[v m] cur'] Hr]; [simpl; lia|].
    unfold execute_single_trace. rewrite Hr. simpl.
    unfold should_add_trace. rewrite ungated. simpl.
    apply IH; [rewrite length_app; simpl; lia | lia | lia].
Qed.

End PlayoutCount.

(** X14: a playout never returns more traces than it was asked for, and none
    when asked for a negative number. *)
Theorem playout_at_most_no_traces (fuel tfuel : nat) (pn : SimPetriNet)
    (im : Marking) (cfg : PlayoutConfig) (draws : nat -> nat) (log : EventLog) :
  playout_algorithm fuel tfuel pn im cfg draws = Done log ->
  Z.of_nat (length log) <= Z.max 0 (no_traces cfg).
Proof.
  unfold playout_algorithm.
  destruct (playout_loop fuel tfuel pn im cfg draws [] 0 0)
    as [[all' i']| |] eqn:Hrun; simpl; try discriminate.
  intros [= <-]. unfold convert_to_event_log. rewrite convert_traces_length.
  eapply playout_loop_at_most; [|exact Hrun]. simpl. lia.
Qed.

Lemma playout_at_most_no_traces_witness :
  Z.of_nat (length (@nil Trace)) <= Z.max 0 (no_traces (unreachable_cfg 3)).
Proof.
  apply (playout_at_most_no_traces 4 10 line_net m_P1 (unreachable_cfg 3)
           zero_draws []).
  vm_compute. reflexivity.
Defined.

(** X15: without the reachability gate, on a net all of whose transitions
    carry a label, the loop of a playout asked for [no_traces >= 0] traces
    ends with exactly that many visited sequences accepted, and a log the
    playout returns has exactly that many traces. *)
Theorem playout_exact_no_traces (fuel tfuel : nat) (pn : SimPetriNet)
    (im : Marking) (cfg : PlayoutConfig) (draws : nat -> nat) :
  cfg_add_only_if_fm_is_reached cfg = false ->
  (forall t, t ∈ transitions pn -> label t <> None) ->
  0 <= no_traces cfg ->
  (Z.to_nat (cfg_max_trace_length cfg) < tfuel)%nat ->
  (Z.to_nat (no_traces cfg) < fuel)%nat ->
  (exists all_visited i,
      playout_loop fuel tfuel pn im cfg draws [] 0 0 = Done (all_visited, i) /\
      Z.of_nat (length all_visited) = no_traces cfg) /\
  (forall log, playout_algorithm fuel tfuel pn im cfg draws = Done log ->
               Z.of_nat (length log) = no_traces cfg).
Proof.
  intros Hun Hlab Hn Htf Hf.
  destruct (playout_loop_exact pn im cfg draws tfuel Hun Hlab Htf fuel [] 0 0%nat)
    as (all' & i' & Hrun & Hlen); [done | lia | rewrite Z.sub_0_r; lia |].
  split; [eauto|].
  intros log. unfold playout_algorithm. rewrite Hrun. simpl. intros [= <-].
  unfold convert_to_event_log. by rewrite convert_traces_length.
Qed.

Lemma playout_exact_no_traces_witness :
  exists all_visited i,
    playout_loop 3 4 loop_net m_P1
      (mkPlayoutConfig 2 3 0 0 None false false) zero_draws [] 0 0
    = Done (all_visited, i) /\
    Z.of_nat (length all_visited)
    = no_traces (mkPlayoutConfig 2 3 0 0 None false false).
Proof.
  apply (playout_exact_no_traces 3 4 loop_net m_P1
           (mkPlayoutConfig 2 3 0 0 None false false) zero_draws).
  - reflexivity.
  - intros t Ht. apply list_elem_of_singleton in Ht. subst t. discriminate.
  - simpl. lia.
  - simpl. lia.
  - simpl. lia.
Defined.

(** * Further properties of the streaming generator *)

Lemma fire_transition_enabled (g : Generator) (d : nat) (t0 : SimTransition)
    (ts : list SimTransition) :
  _handle_enabled_transition g = t0 :: ts ->
  exists x, _fire_transition g (t0 :: ts) d = Done x /\
            match x with
            | Some t => t ∈ transitions (net g) /\
                        is_enabled t (net g) (current_marking g) = true
            | None => True
            end.
Proof.
  intros Hen.
  apply (select_transition_enabled (net g) (current_marking g)
           (final_marking g) (fm_leq_accepted g) d t0 ts Hen).
Qed.

Section GeneratorSteps.

Variables (draws : nat -> nat) (clock : nat -> Z).

Lemma handle_invalid_trace_inv (g g1 : Generator) (w w1 : World) (b : bool) :
  _handle_invalid_trace clock g w = Done (b, g1, w1) ->
  config g1 = config g /\
  current_case_id g1 = current_case_id g /\
  store w1 = store w /\ rng w1 = rng w /\
  (if b then current_marking g1 = initial_marking g /\
             visible_transitions_count g1 = 0
   else g1 = g /\ w1 = w).
Proof.
  unfold _handle_invalid_trace.
  destruct (_is_trace_acceptable g (current_marking g)) as [[|]| |]; simpl;
    try discriminate; intros [= <- <- <-]; by repeat split.
Qed.

(** The first part of an iteration of [__next__]: whether the loop goes round
    at once, and the state otherwise handed to the selection. *)
Lemma restart_inv (g g1 : Generator) (w w1 : World) (again : bool) :
  (if _should_start_new_trace g then
     _handle_invalid_trace clock g w ≫= fun '(invalid, g1, w1) =>
       if (invalid : bool) then Done (true, g1, w1)
       else Done (false, _start_new_trace g1, w1)
   else Done (false, g, w)) = Done (again, g1, w1) ->
  config g1 = config g /\
  current_case_id g <= current_case_id g1 /\
  store w1 = store w /\ rng w1 = rng w /\
  (0 <= visible_transitions_count g -> 0 <= visible_transitions_count g1) /\
  (again = false ->
   visible_transitions_count g1 + 1 <= Z.max 1 (max_trace_length g)) /\
  (current_marking g = initial_marking g ->
   current_marking g1 = initial_marking g).
Proof.
  destruct (_should_start_new_trace g) eqn:Hs.
  - destruct (_handle_invalid_trace clock g w) as [[[b g2] w2]| |] eqn:Hh;
      simpl; try discriminate.
    apply handle_invalid_trace_inv in Hh as (Hc & Hid & Hst & Hr & Hb).
    destruct b; intros [= <- <- <-].
    + destruct Hb as [Hm Hv]. repeat split; try done; try lia.
    + destruct Hb as [-> ->]. repeat split; simpl; try done; lia.
  - intros [= <- <- <-]. repeat split; try done; try lia.
    intros _. unfold _should_start_new_trace in Hs.
    apply orb_false_iff in Hs as [Hs _]. apply Z.leb_gt in Hs. lia.
Qed.

Lemma execute_transition_inv (g g' : Generator) (w w' : World)
    (x : option SimTransition) (e : option Event) :
  (forall t, x = Some t -> is_enabled t (net g) (current_marking g) = true) ->
  exists r, _execute_transition g w x = Done r /\
  (r = (e, g', w') ->
   config g' = config g /\
   current_case_id g <= current_case_id g' /\
   rng w' = rng w /\
   ((forall t, x = Some t -> on_fire_callback t = None) -> store w' = store w) /\
   (0 <= visible_transitions_count g -> 0 <= visible_transitions_count g') /\
   match e with
   | Some ev => exists t, x = Some t /\ event_of ev t g' /\
                          visible_transitions_count g'
                          = visible_transitions_count g + 1
   | None => True
   end).
Proof.
  intros Hen. destruct x as [t|]; simpl.
  - destruct (all_resources_available t (store w)); simpl.
    + rewrite (execute_enabled _ _ _ (Hen t eq_refl)).
      destruct (label t) as [l|] eqn:Hl; simpl.
      * eexists. split; [reflexivity|]. intros [= <- <- <-].
        repeat split; simpl; try done; try lia.
        -- by destruct (on_fire_callback t).
        -- intros Hcb. by rewrite (Hcb t eq_refl).
        -- exists t. by repeat split.
      * eexists. split; [reflexivity|]. intros [= <- <- <-].
        repeat split; simpl; try done; try lia.
        -- by destruct (on_fire_callback t).
        -- intros Hcb. by rewrite (Hcb t eq_refl).
    + eexists. split; [reflexivity|]. intros [= <- <- <-].
      repeat split; try done; lia.
  - eexists. split; [reflexivity|]. intros [= <- <- <-].
    repeat split; simpl; try done; lia.
Qed.

(** What one iteration of [__next__] keeps and what an event it returns
    says. *)
Lemma next_iteration_inv (g g' : Generator) (w w' : World) (e : option Event) :
  next_iteration draws clock g w = Done (e, g', w') ->
  config g' = config g /\
  current_case_id g <= current_case_id g' /\
  (0 <= visible_transitions_count g -> 0 <= visible_transitions_count g') /\
  ((forall t, t ∈ transitions (net g) -> on_fire_callback t = None) ->
   store w' = store w) /\
  match e with
  | Some ev => exists t, t ∈ transitions (net g) /\ event_of ev t g' /\
                         visible_transitions_count g' <= Z.max 1 (max_trace_length g) /\
                         (0 <= visible_transitions_count g ->
                          1 <= visible_transitions_count g')
  | None => True
  end.
Proof.
  unfold next_iteration.
  destruct (if _should_start_new_trace g then _ else _)
    as [[[again g1] w1]| |] eqn:Hpre; simpl; try discriminate.
  apply restart_inv in Hpre as (Hc & Hid & Hst & Hr & Hv & Hbound & _).
  assert (net g1 = net g) as Hnet by (by injection Hc).
  destruct again.
  { intros [= <- <- <-]. by repeat split. }
  destruct (_handle_enabled_transition g1) as [|t0 ts] eqn:Hen.
  { intros [= <- <- <-]. repeat split; simpl; try done; try lia. }
  destruct (fire_transition_enabled g1 (draws (rng w1)) t0 ts Hen)
    as (x & Hx & Hok).
  rewrite Hx. simpl. intros Hex.
  destruct (execute_transition_inv g1 g'
              (mkWorld (store w1) (S (rng w1)) (clk w1)) w' x e)
    as (r & Hr' & Hinv).
  { intros t ->. by destruct Hok. }
  rewrite Hr' in Hex. injection Hex as ->.
  destruct (Hinv eq_refl) as (Hc' & Hid' & _ & Hst' & Hv' & He).
  split; [congruence|]. split; [lia|]. split; [auto|]. split.
  - intros Hcb. simpl in Hst'. rewrite Hst'; [done|].
    intros t ->. apply Hcb. destruct Hok as [Hin _]. by rewrite <- Hnet.
  - destruct e as [ev|]; [|done].
    destruct He as (t & -> & Hev & Hcount).
    exists t. destruct Hok as [Hin _]. rewrite Hnet in Hin.
    split; [done|]. split; [done|].
    specialize (Hbound eq_refl). split; [lia|]. intros H0. specialize (Hv H0). lia.
Qed.

Lemma next_inv (fuel : nat) :
  forall (g g' : Generator) (w w' : World) (ev : Event),
    next fuel draws clock g w = Done (ev, g', w') ->
    config g' = config g /\
    current_case_id g <= current_case_id g' /\
    ((forall t, t ∈ transitions (net g) -> on_fire_callback t = None) ->
     store w' = store w) /\
    exists t, t ∈ transitions (net g) /\ event_of ev t g' /\
              visible_transitions_count g' <= Z.max 1 (max_trace_length g) /\
              (0 <= visible_transitions_count g ->
               1 <= visible_transitions_count g').
Proof.
  induction fuel as [|fuel IH]; intros g g' w w' ev Hrun; [discriminate|].
  simpl in Hrun.
  destruct (next_iteration draws clock g w) as [[[e g1] w1]| |] eqn:Hit;
    simpl in Hrun; try discriminate.
  apply next_iteration_inv in Hit as (Hc & Hid & Hv & Hst & He).
  assert (net g1 = net g) as Hnet by (by injection Hc).
  assert (max_trace_length g1 = max_trace_length g) as Hmtl by (by injection Hc).
  destruct e as [ev1|].
  - injection Hrun as <- <- <-. by repeat split.
  - apply IH in Hrun as (Hc' & Hid' & Hst' & t & Hin & Hev & Hb & H1).
    split; [congruence|]. split; [lia|]. split.
    + intros Hcb. rewrite Hst'; [by apply Hst|]. by rewrite Hnet.
    + exists t. rewrite <- Hnet, <- Hmtl.
      split; [done|]. split; [done|]. split; [done|]. intros H0. auto.
Qed.

End GeneratorSteps.

(** X16: [__next__] never changes what [__init__] fixed (net, initial and
    final marking, trace bound, flags, prefix), and the case id it leaves is
    never smaller than the one it found. *)
Theorem next_keeps_config (fuel : nat) (draws : nat -> nat) (clock : nat -> Z)
    (g g' : Generator) (w w' : World) (ev : Event) :
  next fuel draws clock g w = Done (ev, g', w') ->
  config g' = config g /\ current_case_id g <= current_case_id g'.
Proof.
  intros Hrun. apply next_inv in Hrun as (Hc & Hid & _). by split.
Qed.

Lemma next_keeps_config_witness :
  config after_first_event = config (strict_generator "g") /\
  current_case_id (strict_generator "g") <= current_case_id after_first_event.
Proof.
  apply (next_keeps_config 5 zero_draws (const_clock 0) (strict_generator "g")
           after_first_event empty_world (mkWorld ∅ 1 0) first_event).
  vm_compute. reflexivity.
Defined.

(** X17: an event returned by [__next__] carries the label and the prefixed
    attributes of a transition of the net, the case id and the timestamp the
    generator is left with, and the generator's prefix. *)
Theorem next_event_of_transition (fuel : nat) (draws : nat -> nat)
    (clock : nat -> Z) (g g' : Generator) (w w' : World) (ev : Event) :
  next fuel draws clock g w = Done (ev, g', w') ->
  exists t, t ∈ transitions (net g) /\
            label t = Some (ev_activity ev) /\
            ev_attributes ev = event_attributes t /\
            ev_case_number ev = current_case_id g' /\
            ev_timestamp ev = current_timestamp g' /\
            ev_case_prefix ev = UNIQUE_ID_PREFIX g.
Proof.
  intros Hrun. pose proof Hrun as Hrun'.
  apply next_inv in Hrun as (Hc & _ & _ & t & Hin & Hev & _).
  exists t. split; [done|]. destruct Hev as (Hl & Ha & Hn & Ht & Hp).
  repeat split; try done. rewrite Hp. by injection Hc.
Qed.

Lemma next_event_of_transition_witness :
  exists t, t ∈ transitions (net (strict_generator "g")) /\
            label t = Some (ev_activity first_event) /\
            ev_attributes first_event = event_attributes t /\
            ev_case_number first_event = current_case_id after_first_event /\
            ev_timestamp first_event = current_timestamp after_first_event /\
            ev_case_prefix first_event = UNIQUE_ID_PREFIX (strict_generator "g").
Proof.
  apply (next_event_of_transition 5 zero_draws (const_clock 0)
           (strict_generator "g") after_first_event empty_world
           (mkWorld ∅ 1 0) first_event).
  vm_compute. reflexivity.
Defined.

(** X18: after an event the count of visible firings of the current trace is
    at least 1 and at most the trace bound, or 1 when the bound is smaller:
    with a bound of 1 or less every event returned is the first of its
    trace. *)
Theorem next_visible_count (fuel : nat) (draws : nat -> nat)
    (clock : nat -> Z) (g g' : Generator) (w w' : World) (ev : Event) :
  0 <= visible_transitions_count g ->
  next fuel draws clock g w = Done (ev, g', w') ->
  1 <= visible_transitions_count g' <= Z.max 1 (max_trace_length g).
Proof.
  intros H0 Hrun. apply next_inv in Hrun as (_ & _ & _ & t & _ & _ & Hb & H1).
  split; [auto | done].
Qed.

Lemma next_visible_count_witness :
  1 <= visible_transitions_count after_first_event
    <= Z.max 1 (max_trace_length (strict_generator "g")).
Proof.
  apply (next_visible_count 5 zero_draws (const_clock 0) (strict_generator "g")
           after_first_event empty_world (mkWorld ∅ 1 0) first_event).
  - simpl. lia.
  - vm_compute. reflexivity.
Defined.

(** X19: the generator itself never acquires or releases a resource: when no
    transition of the net has a firing callback, [__next__] leaves every
    resource as it found it. *)
Theorem next_leaves_resources (fuel : nat) (draws : nat -> nat)
    (clock : nat -> Z) (g g' : Generator) (w w' : World) (ev : Event) :
  (forall t, t ∈ transitions (net g) -> on_fire_callback t = None) ->
  next fuel draws clock g w = Done (ev, g', w') ->
  store w' = store w.
Proof.
  intros Hcb Hrun. apply next_inv in Hrun as (_ & _ & Hst & _). auto.
Qed.

Lemma next_leaves_resources_witness :
  store (mkWorld exhausted_store 1 0) = store (mkWorld exhausted_store 0 0).
Proof.
  apply (next_leaves_resources 5 zero_draws (const_clock 0)
           (strict_generator "g") after_first_event
           (mkWorld exhausted_store 0 0) (mkWorld exhausted_store 1 0)
           first_event).
  - intros t Ht. apply list_elem_of_singleton in Ht. by subst t.
  - vm_compute. reflexivity.
Defined.

(** X20: in [__next__] the draw is never made from an empty list and never
    selects a transition that [execute] refuses: with some transition
    enabled, [_fire_transition] returns the stop option or a transition of
    the net for which [execute] returns a marking; and
    [_is_trace_acceptable] returns a boolean when the generator does not
    require the final marking or has one configured. *)
Theorem fire_transition_safe (g : Generator) (d : nat) (m : Marking) :
  (_handle_enabled_transition g <> [] ->
   exists x, _fire_transition g (_handle_enabled_transition g) d = Done x /\
             match x with
             | Some t =>
                 t ∈ transitions (net g) /\
                 exists m', execute t (net g) (current_marking g) = Some m'
             | None => may_stop (final_marking g) (current_marking g)
                         (fm_leq_accepted g) = true
             end) /\
  (add_only_if_fm_is_reached g = false \/ final_marking g <> None ->
   exists b, _is_trace_acceptable g m = Done b).
Proof.
  split.
  - intros Hne.
    destruct (_handle_enabled_transition g) as [|t0 ts] eqn:Hen; [done|].
    destruct (fire_transition_enabled g d t0 ts Hen) as (x & Hx & Hok).
    exists x. split; [exact Hx|]. destruct x as [t|].
    + destruct Hok as [Hin E]. split; [done|].
      eexists. apply (execute_enabled _ _ _ E).
    + by apply select_stop_offered in Hx.
  - intros Hcfg. unfold _is_trace_acceptable, py_eq.
    destruct Hcfg as [->|Hfm]; simpl; [eauto|].
    destruct (final_marking g) as [f|]; [|done].
    destruct (negb _); [eauto|]. simpl.
    destruct (marking_eq f m); simpl; eauto.
Qed.

Lemma fire_transition_safe_witness :
  exists x,
    _fire_transition loop_generator (_handle_enabled_transition loop_generator) 1
    = Done x /\
    match x with
    | Some t =>
        t ∈ transitions (net loop_generator) /\
        exists m', execute t (net loop_generator)
                     (current_marking loop_generator) = Some m'
    | None => may_stop (final_marking loop_generator)
                (current_marking loop_generator)
                (fm_leq_accepted loop_generator) = true
    end.
Proof.
  apply (fire_transition_safe loop_generator 1 m_P1).
  vm_compute. discriminate.
Defined.

Section DeadStart.

Variables (draws : nat -> nat) (clock : nat -> Z).

Lemma dead_iteration (g : Generator) (w : World) :
  enabled_transitions (net g) (initial_marking g) = [] ->
  current_marking g = initial_marking g ->
  match next_iteration draws clock g w with
  | Done (e, g1, w1) =>
      e = None /\ config g1 = config g /\
      current_marking g1 = initial_marking g1
  | Raised => add_only_if_fm_is_reached g = true
  | Timeout => False
  end.
Proof.
  destruct g as [pn im fm mtl cid ts add leq pre cm vc]. simpl.
  intros Hdead ->.
  unfold next_iteration, _should_start_new_trace, _handle_invalid_trace,
    _is_trace_acceptable, _handle_enabled_transition, _start_new_trace,
    _initialize_trace, set_trace_state, py_eq.
  simpl. rewrite Hdead, orb_true_r.
  destruct add; simpl; [|by rewrite Hdead].
  destruct fm as [f|]; simpl; [|done].
  destruct (marking_eq f im); simpl; [by rewrite Hdead|].
  destruct (marking_le f im && leq); simpl; [by rewrite Hdead | done].
Qed.

Lemma dead_next (fuel : nat) :
  forall (g : Generator) (w : World),
    enabled_transitions (net g) (initial_marking g) = [] ->
    current_marking g = initial_marking g ->
    (forall r, next fuel draws clock g w <> Done r) /\
    (add_only_if_fm_is_reached g = false ->
     next fuel draws clock g w = Timeout).
Proof.
  induction fuel as [|fuel IH]; intros g w Hdead Hcur.
  - split; [discriminate | reflexivity].
  - simpl. pose proof (dead_iteration g w Hdead Hcur) as Hit.
    destruct (next_iteration draws clock g w) as [[[e g1] w1]| |]; simpl.
    + destruct Hit as (-> & Hc & Hcur1).
      assert (enabled_transitions (net g1) (initial_marking g1) = []) as Hdead1.
      { injection Hc as -> -> _ _ _ _ _. exact Hdead. }
      destruct (IH g1 w1 Hdead1 Hcur1) as [Hnd Hto].
      split; [exact Hnd|]. intros Hadd. apply Hto.
      injection Hc as _ _ _ _ -> _ _. exact Hadd.
    + split; [discriminate|]. intros Hadd. congruence.
    + done.
Qed.

End DeadStart.

(** X21: when no transition is enabled in the initial marking, a generator
    standing at it never returns an event: [__next__] goes round its loop for
    ever, and reports neither deadlock nor exhaustion. *)
Theorem next_dead_start_spins (fuel : nat) (draws : nat -> nat)
    (clock : nat -> Z) (g : Generator) (w : World) :
  enabled_transitions (net g) (initial_marking g) = [] ->
  current_marking g = initial_marking g ->
  (forall r, next fuel draws clock g w <> Done r) /\
  (add_only_if_fm_is_reached g = false ->
   next fuel draws clock g w = Timeout).
Proof. apply dead_next. Qed.

Lemma next_dead_start_spins_witness :
  next 50 zero_draws (const_clock 0) dead_generator empty_world = Timeout.
Proof.
  apply (next_dead_start_spins 50 zero_draws (const_clock 0) dead_generator
           empty_world); reflexivity.
Defined.

(** * Properties of the consumers of the generator *)

Lemma simulate_process_loop_length (fuel n : nat) (draws : nat -> nat)
    (clock : nat -> Z) (max_traces : Z) :
  forall (g : Generator) (w : World) (log res : list Event),
    simulate_process_loop fuel n draws clock g w log max_traces = Done res ->
    Z.of_nat (length res) = Z.max (Z.of_nat (length log) + 1) max_traces.
Proof.
  induction n as [|n IH]; intros g w log res Hrun; [discriminate|].
  simpl in Hrun.
  destruct (next fuel draws clock g w) as [[[e g'] w']| |]; simpl in Hrun;
    try discriminate.
  destruct (max_traces <=? Z.of_nat (length (log ++ [e]))) eqn:E.
  - injection Hrun as <-. apply Z.leb_le in E.
    rewrite length_app in *. simpl in *. lia.
  - apply Z.leb_gt in E. apply IH in Hrun.
    rewrite length_app in *. simpl in *. lia.
Qed.

(** X22: when [_simulate_process] returns, it returns [max_traces] events,
    and one event when [max_traces] is 0 or negative: the test that ends its
    loop comes after the first event has been appended. *)
Theorem simulate_process_length (fuel n : nat) (pn : SimPetriNet)
    (im : Marking) (fm : option Marking) (max_traces : Z) (prefix : string)
    (draws : nat -> nat) (clock : nat -> Z) (w : World) (res : list Event) :
  _simulate_process fuel n pn im fm max_traces prefix draws clock w = Done res ->
  Z.of_nat (length res) = Z.max 1 max_traces.
Proof.
  unfold _simulate_process.
  destruct (new_generator _ _ _ _ _ _ _ _ _ _ _) as [g w0].
  intros Hrun. apply simulate_process_loop_length in Hrun. simpl in Hrun. lia.
Qed.

Lemma simulate_process_length_witness :
  Z.of_nat (length [mkEvent "again" 5 "g" 0 []]) = Z.max 1 0.
Proof.
  apply (simulate_process_length 3 3 loop_net m_P1 None 0 "g" zero_draws
           (const_clock 0) empty_world).
  vm_compute. reflexivity.
Defined.

Section Agents.

Variables (shared_resources : gmap string string) (draws : nat -> nat).

Lemma execute_next_transition_inv (a a' : ProcessAgent) (w w' : World)
    (e : option AgentEvent) :
  execute_next_transition a shared_resources draws w = Done (e, a', w') ->
  agent_id a' = agent_id a /\
  petri_net a' = petri_net a /\
  event_log a' = event_log a ++ match e with Some ae => [ae] | None => [] end /\
  (forall ae, e = Some ae -> ev_agent_id ae = agent_id a) /\
  match generator a, generator a' with
  | Some g, Some g' =>
      config g' = config g /\ current_case_id g' = current_case_id g
  | None, None => True
  | _, _ => False
  end.
Proof.
  destruct a as [id pn im fm log gen]. unfold execute_next_transition. simpl.
  destruct gen as [g|].
  2:{ intros [= <- <- <-]. simpl. by rewrite app_nil_r. }
  destruct (_handle_enabled_transition g) as [|t0 ts].
  { intros [= <- <- <-]. simpl. by rewrite app_nil_r. }
  destruct (_fire_transition g (t0 :: ts) (draws (rng w))) as [[t|]| |];
    simpl; try discriminate.
  2:{ intros [= <- <- <-]. simpl. by rewrite app_nil_r. }
  destruct (_can_acquire_resources t shared_resources (store w)).
  2:{ intros [= <- <- <-]. simpl. by rewrite app_nil_r. }
  unfold _execute_transition, _create_event, set_trace_state. simpl.
  destruct (all_resources_available t (store w)); simpl.
  2:{ intros [= <- <- <-]. simpl. by rewrite app_nil_r. }
  destruct (execute t (net g) (current_marking g)); simpl; [|discriminate].
  destruct (label t); simpl; intros [= <- <- <-]; simpl.
  - repeat split; try done. by intros ae [= <-].
  - rewrite app_nil_r. by repeat split.
Qed.

Lemma execute_next_transition_progress (max_traces : Z) (a a' : ProcessAgent)
    (w w' : World) (e : option AgentEvent) (sim_log : list AgentEvent) :
  Z.of_nat (length (event_log a)) < max_traces ->
  execute_next_transition a shared_resources draws w = Done (e, a', w') ->
  agent_progress max_traces a a' /\
  (length (match e with Some ev => sim_log ++ [ev] | None => sim_log end)
     + length (event_log a)
   = length sim_log + length (event_log a'))%nat.
Proof.
  intros Hlt Hrun.
  apply execute_next_transition_inv in Hrun as (Hid & Hpn & Hlog & _).
  unfold agent_progress. rewrite Hlog, Hid, Hpn.
  destruct e; rewrite !length_app; simpl; repeat split; lia.
Qed.

Lemma total_events_cons (a : ProcessAgent) (rest : list ProcessAgent) :
  total_events (a :: rest) = (length (event_log a) + total_events rest)%nat.
Proof. reflexivity. Qed.

Lemma simulate_tick_progress (max_traces : Z) (agents : list ProcessAgent) :
  forall (w w' : World) (sim_log sim_log' : list AgentEvent) agents',
    simulate_tick agents shared_resources max_traces draws w sim_log
      = Done (agents', sim_log', w') ->
    Forall2 (agent_progress max_traces) agents agents' /\
    (length sim_log' + total_events agents
     = length sim_log + total_events agents')%nat.
Proof.
  induction agents as [|a rest IH]; intros w w' sim_log sim_log' agents' Hrun;
    simpl in Hrun.
  - injection Hrun as <- <- <-. split; [constructor | reflexivity].
  - destruct (max_traces <=? Z.of_nat (length (event_log a))) eqn:E.
    + destruct (simulate_tick rest _ _ _ _ _) as [[[rest' l'] w1]| |] eqn:Hrest;
        simpl in Hrun; try discriminate.
      injection Hrun as <- <- <-.
      apply IH in Hrest as [Hall Hsum]. split.
      * constructor; [|done]. unfold agent_progress. repeat split; lia.
      * rewrite !total_events_cons. lia.
    + apply Z.leb_gt in E.
      destruct (execute_next_transition a _ _ _) as [[[e a1] w1]| |] eqn:Hstep;
        simpl in Hrun; try discriminate.
      destruct (simulate_tick rest _ _ _ _ _) as [[[rest' l'] w2]| |] eqn:Hrest;
        simpl in Hrun; try discriminate.
      injection Hrun as <- <- <-.
      apply IH in Hrest as [Hall Hsum].
      destruct (execute_next_transition_progress max_traces a a1 w w1 e
                  sim_log E Hstep) as [Hprog Hlen].
      split; [by constructor|].
      rewrite !total_events_cons. lia.
Qed.

Lemma agent_progress_trans (max_traces : Z) (a b c : ProcessAgent) :
  agent_progress max_traces a b -> agent_progress max_traces b c ->
  agent_progress max_traces a c.
Proof.
  unfold agent_progress. intros (H1 & H2 & H3 & H4) (H5 & H6 & H7 & H8).
  repeat split; try congruence; lia.
Qed.

Lemma agents_progress_trans (max_traces : Z) (xs ys zs : list ProcessAgent) :
  Forall2 (agent_progress max_traces) xs ys ->
  Forall2 (agent_progress max_traces) ys zs ->
  Forall2 (agent_progress max_traces) xs zs.
Proof.
  intros H. revert zs. induction H as [|x y xs ys Hxy _ IH]; intros zs Hyz.
  - inversion Hyz. constructor.
  - inversion Hyz as [|? z ? zs' Hyz1 Hyz2]; subst.
    constructor; [by eapply agent_progress_trans | by apply IH].
Qed.

Lemma agents_progress_refl (max_traces : Z) (xs : list ProcessAgent) :
  Forall2 (agent_progress max_traces) xs xs.
Proof.
  induction xs as [|x xs IH]; constructor; [|done].
  unfold agent_progress. repeat split; lia.
Qed.

Lemma simulate_loop_progress (max_traces end_time : Z) (clock : nat -> Z)
    (fuel : nat) :
  forall (agents agents' : list ProcessAgent) (w w' : World)
         (sim_log sim_log' : list AgentEvent),
    simulate_loop fuel agents shared_resources max_traces end_time draws clock
      w sim_log = Done (agents', sim_log', w') ->
    Forall2 (agent_progress max_traces) agents agents' /\
    (length sim_log' + total_events agents
     = length sim_log + total_events agents')%nat.
Proof.
  induction fuel as [|fuel IH];
    intros agents agents' w w' sim_log sim_log' Hrun; [discriminate|].
  simpl in Hrun. destruct (clock (clk w) <? end_time).
  - destruct (simulate_tick agents _ _ _ _ _) as [[[ag1 l1] w1]| |] eqn:Htick;
      simpl in Hrun; try discriminate.
    apply simulate_tick_progress in Htick as [Hall Hsum].
    destruct (forallb _ ag1).
    + injection Hrun as <- <- <-. by split.
    + apply IH in Hrun as [Hall' Hsum'].
      split; [by eapply agents_progress_trans | lia].
  - injection Hrun as <- <- <-. split; [apply agents_progress_refl | lia].
Qed.

Lemma initialize_generators_logs (prefix_of : string -> string)
    (clock : nat -> Z) (agents : list ProcessAgent) :
  forall (w : World),
    Forall2 (fun a a' => agent_id a' = agent_id a /\
                         petri_net a' = petri_net a /\
                         event_log a' = event_log a)
            agents (initialize_generators agents prefix_of clock w).1.
Proof.
  induction agents as [|a rest IH]; intros w; [constructor|].
  cbn [initialize_generators].
  destruct (initialize_generator a (prefix_of (agent_id a)) clock w)
    as [a' w1] eqn:Ha.
  specialize (IH w1).
  destruct (initialize_generators rest prefix_of clock w1) as [rest' w2].
  simpl in *. constructor; [|done].
  unfold initialize_generator in Ha.
  destruct (new_generator (petri_net a) (agent_initial_marking a)
              (agent_final_marking a) 10000 0 None false false
              (prefix_of (agent_id a)) clock w) as [g w0].
  by injection Ha as <- <-.
Qed.

End Agents.

(** X23: a call of [execute_next_transition] leaves the agent its id and net,
    appends to its log exactly the event it returns, tagged with the agent's
    id, and never moves the agent's generator to another case: its case id
    and configuration stay as they were, also when the stop option is
    drawn. *)
Theorem execute_next_transition_step (shared_resources : gmap string string)
    (draws : nat -> nat) (a a' : ProcessAgent) (w w' : World)
    (e : option AgentEvent) :
  execute_next_transition a shared_resources draws w = Done (e, a', w') ->
  agent_id a' = agent_id a /\
  petri_net a' = petri_net a /\
  event_log a' = event_log a ++ match e with Some ae => [ae] | None => [] end /\
  (forall ae, e = Some ae -> ev_agent_id ae = agent_id a) /\
  match generator a, generator a' with
  | Some g, Some g' =>
      config g' = config g /\ current_case_id g' = current_case_id g
  | None, None => True
  | _, _ => False
  end.
Proof. apply execute_next_transition_inv. Qed.

Lemma execute_next_transition_step_witness :
  agent_id line_agent_after = agent_id line_agent /\
  petri_net line_agent_after = petri_net line_agent /\
  event_log line_agent_after = event_log line_agent ++ [line_agent_event] /\
  (forall ae, Some line_agent_event = Some ae -> ev_agent_id ae = agent_id line_agent) /\
  match generator line_agent, generator line_agent_after with
  | Some g, Some g' =>
      config g' = config g /\ current_case_id g' = current_case_id g
  | None, None => True
  | _, _ => False
  end.
Proof.
  apply (execute_next_transition_step ∅ zero_draws line_agent line_agent_after
           empty_world (mkWorld ∅ 1 0) (Some line_agent_event)).
  vm_compute. reflexivity.
Defined.

(** X24: when the registry holds, under the name of each resource of the
    transition, either nothing or that very resource, the agent's registry
    check is never stricter than the transition's own check; when it holds
    each of them, the two checks agree. A registry holding another object
    under the same name can refuse a transition whose own resources are all
    available. *)
Theorem can_acquire_resources_weaker (t : SimTransition)
    (available_resources : gmap string string) (st : Store) :
  ((forall r resource, r ∈ resources t -> st !! r = Some resource ->
       available_resources !! res_name resource = Some r \/
       available_resources !! res_name resource = None) ->
   all_resources_available t st = true ->
   _can_acquire_resources t available_resources st = true) /\
  ((forall r resource, r ∈ resources t -> st !! r = Some resource ->
       available_resources !! res_name resource = Some r) ->
   _can_acquire_resources t available_resources st
   = all_resources_available t st) /\
  (exists (t' : SimTransition) (reg : gmap string string) (st' : Store),
      all_resources_available t' st' = true /\
      _can_acquire_resources t' reg st' = false).
Proof.
  unfold _can_acquire_resources, all_resources_available.
  split; [|split].
  - intros Hreg. rewrite !forallb_forall. intros H r Hr.
    specialize (H r Hr). apply list_elem_of_In in Hr.
    destruct (st !! r) as [resource|] eqn:Hst; [|done].
    destruct (Hreg r resource Hr Hst) as [-> | ->]; [|done].
    by rewrite Hst.
  - induction (resources t) as [|r rs IH]; intros Hreg; [done|]. simpl.
    rewrite IH by (intros r' res' Hr'; apply Hreg, elem_of_cons; by right).
    destruct (st !! r) as [resource|] eqn:Hst; [|done].
    rewrite (Hreg r resource) by (try done; apply elem_of_cons; by left).
    by rewrite Hst.
  - exists (mkTransition "T" (Some "A") 10 [] ["robot2"] None [] []),
           {[ "robot" := "robot" ]}, two_robots.
    split; vm_compute; reflexivity.
Qed.

Lemma can_acquire_resources_weaker_witness :
  _can_acquire_resources T_robot {[ "robot" := "robot" ]} exhausted_store
  = all_resources_available T_robot exhausted_store.
Proof.
  apply (can_acquire_resources_weaker T_robot {[ "robot" := "robot" ]}
           exhausted_store).
  intros r resource Hr Hst. apply list_elem_of_singleton in Hr. subst r.
  unfold exhausted_store in Hst. rewrite lookup_singleton_eq in Hst.
  injection Hst as <-. simpl. apply lookup_singleton_eq.
Defined.

Lemma same_logs_progress (max_traces : Z) (xs ys : list ProcessAgent) :
  Forall2 (fun a a' => agent_id a' = agent_id a /\
                       petri_net a' = petri_net a /\
                       event_log a' = event_log a) xs ys ->
  Forall2 (agent_progress max_traces) xs ys /\
  total_events ys = total_events xs.
Proof.
  induction 1 as [|x y xs ys (Hid & Hpn & Hlog) _ [IH1 IH2]].
  - split; [constructor | reflexivity].
  - split.
    + constructor; [|done]. unfold agent_progress. rewrite Hid, Hpn, Hlog.
      repeat split; lia.
    + rewrite !total_events_cons, Hlog, IH2. reflexivity.
Qed.

(** X25: [simulate] lets no agent pass its quota: every agent keeps its id
    and net, its log only grows and, once it shows [max_traces] events, grows
    no further; and the simulator's log gains exactly the events the agents'
    logs gain together. *)
Theorem simulate_quota (fuel : nat) (agents agents' : list ProcessAgent)
    (shared_resources : gmap string string) (max_traces max_time : Z)
    (prefix_of : string -> string) (draws : nat -> nat) (clock : nat -> Z)
    (w w' : World) (sim_log sim_log' : list AgentEvent) :
  simulate fuel agents shared_resources max_traces max_time prefix_of draws
    clock w sim_log = Done (agents', sim_log', w') ->
  Forall2 (fun a a' =>
             agent_id a' = agent_id a /\ petri_net a' = petri_net a /\
             (length (event_log a) <= length (event_log a'))%nat /\
             Z.of_nat (length (event_log a'))
               <= Z.max (Z.of_nat (length (event_log a))) max_traces)
          agents agents' /\
  (length sim_log' + total_events agents
   = length sim_log + total_events agents')%nat.
Proof.
  unfold simulate.
  pose proof (initialize_generators_logs prefix_of clock agents
                (mkWorld (store w) (rng w) (S (clk w)))) as Hinit.
  destruct (initialize_generators agents prefix_of clock _) as [ag0 w0].
  simpl in Hinit. intros Hrun.
  apply simulate_loop_progress in Hrun as [Hall Hsum].
  apply (same_logs_progress max_traces) in Hinit as [Hall0 Hsum0].
  split; [by eapply agents_progress_trans | lia].
Qed.

Lemma simulate_quota_witness :
  Forall2 (fun a a' =>
             agent_id a' = agent_id a /\ petri_net a' = petri_net a /\
             (length (event_log a) <= length (event_log a'))%nat /\
             Z.of_nat (length (event_log a'))
               <= Z.max (Z.of_nat (length (event_log a))) 1)
          [new_agent "agent_0" line_net m_P1 (Some m_P2)] [line_agent_after] /\
  (length [line_agent_event]
     + total_events [new_agent "agent_0" line_net m_P1 (Some m_P2)]
   = length (@nil AgentEvent) + total_events [line_agent_after])%nat.
Proof.
  apply (simulate_quota 3 [new_agent "agent_0" line_net m_P1 (Some m_P2)]
           [line_agent_after] ∅ 1 100 (fun _ => "g") zero_draws
           (const_clock 0) empty_world (mkWorld ∅ 1 3) [] [line_agent_event]).
  vm_compute. reflexivity.
Defined.

(** * Why a trace ends, and when nothing can fire *)

Lemma trace_loop_end (pn : SimPetriNet) (mtl : Z) (fm : option Marking)
    (leq : bool) (draws : nat -> nat) (fuel : nat) :
  forall visited visible (m : Marking) (cur : nat) v' m' cur',
    trace_loop fuel pn mtl fm leq draws visited visible m cur
      = Done (v', m', cur') ->
    exists suffix,
      v' = visited ++ suffix /\
      (enabled_transitions pn m' = [] \/
       may_stop fm m' leq = true \/
       mtl <= Z.of_nat (length visible + length (labels (fired suffix)))).
Proof.
  induction fuel as [|fuel IH]; intros visited visible m cur v' m' cur' Hrun;
    [discriminate|].
  simpl in Hrun. destruct (Z.of_nat (length visible) <? mtl) eqn:Hlt.
  - destruct (enabled_transitions pn m) as [|t0 ts] eqn:Hen.
    + injection Hrun as <- <- <-. exists [VMarking m]. split; [done|]. by left.
    + destruct (select_transition (t0 :: ts) fm m leq (draws cur))
        as [[t|]| |] eqn:Hsel; simpl in Hrun; try discriminate.
      * destruct (execute t pn m) as [m1|]; [|discriminate].
        apply IH in Hrun as (suffix & -> & Hend).
        exists (VMarking m :: VTrans t :: suffix).
        split; [by rewrite <- !app_assoc|].
        destruct Hend as [H|[H|H]]; [by left | by right; left |].
        right; right. simpl. unfold labels in *. simpl.
        destruct (label t); simpl in *.
        -- rewrite length_app in H. simpl in H. lia.
        -- lia.
      * injection Hrun as <- <- <-. exists [VMarking m]. split; [done|].
        right; left. by apply select_stop_offered in Hsel.
  - injection Hrun as <- <- <-. exists []. rewrite app_nil_r. split; [done|].
    right; right. apply Z.ltb_ge in Hlt. simpl. lia.
Qed.

(** X26: a batch trace ends for one of three reasons only: no transition is
    enabled in the marking it returns, the stop option was on offer there, or
    it has as many visible transitions as the bound allows. *)
Theorem execute_single_trace_end (fuel : nat) (pn : SimPetriNet)
    (im : Marking) (mtl : Z) (fm : option Marking) (leq : bool)
    (draws : nat -> nat) (cur : nat) v m cur' :
  execute_single_trace fuel pn im mtl fm leq draws cur = Done (v, m, cur') ->
  enabled_transitions pn m = [] \/
  (exists f, fm = Some f /\ marking_le f m = true /\
             (marking_eq f m = true \/ leq = true)) \/
  mtl <= Z.of_nat (length (labels (fired v))).
Proof.
  intros Hrun. apply trace_loop_end in Hrun as (suffix & -> & Hend).
  destruct Hend as [H|[H|H]]; [by left | right; left | right; right].
  - by apply may_stop_iff in H.
  - simpl in *. lia.
Qed.

Lemma execute_single_trace_end_witness :
  enabled_transitions line_net m_P2 = [] \/
  (exists f, Some m_P2 = Some f /\ marking_le f m_P2 = true /\
             (marking_eq f m_P2 = true \/ false = true)) \/
  100 <= Z.of_nat (length (labels (fired
           [VMarking m_P1; VTrans T_A; VMarking m_P2]))).
Proof.
  apply (execute_single_trace_end 5 line_net m_P1 100 (Some m_P2) false
           zero_draws 0 _ m_P2 1%nat).
  vm_compute. reflexivity.
Defined.

Lemma playout_loop_not_raised (fuel tfuel : nat) (pn : SimPetriNet)
    (im : Marking) (cfg : PlayoutConfig) (draws : nat -> nat) :
  cfg_add_only_if_fm_is_reached cfg = false \/ cfg_final_marking cfg <> None ->
  forall all_visited (i : Z) (cur : nat),
    playout_loop fuel tfuel pn im cfg draws all_visited i cur <> Raised.
Proof.
  intros Hcfg. induction fuel as [|fuel IH]; intros all_visited i cur;
    [discriminate|].
  simpl. destruct (no_traces cfg <=? _); [discriminate|].
  destruct (_ && _); [discriminate|].
  pose proof (trace_loop_not_raised pn (cfg_max_trace_length cfg)
                (cfg_final_marking cfg) (cfg_fm_leq_accepted cfg) draws tfuel
                [] [] im cur) as Hnr.
  unfold execute_single_trace.
  destruct (trace_loop tfuel pn _ _ _ draws [] [] im cur)
    as [[[v m] cur']| |]; simpl; [|done|discriminate].
  assert (exists b, should_add_trace m (cfg_final_marking cfg)
                      (cfg_add_only_if_fm_is_reached cfg)
                      (cfg_fm_leq_accepted cfg) = Done b) as [b ->].
  { unfold should_add_trace. destruct Hcfg as [->|Hfm]; simpl; [eauto|].
    destruct (cfg_final_marking cfg) as [f|]; [|done].
    destruct (negb _); [eauto|]. simpl.
    destruct (marking_eq f m); simpl; eauto. }
  simpl. apply IH.
Qed.

(** X27: the loop of a playout (the attempts and their acceptance, before
    the accepted sequences are turned into an event log) raises nothing when
    the playout does not require the final marking or has one configured. *)
Theorem playout_no_error (fuel tfuel : nat) (pn : SimPetriNet) (im : Marking)
    (cfg : PlayoutConfig) (draws : nat -> nat) :
  cfg_add_only_if_fm_is_reached cfg = false \/ cfg_final_marking cfg <> None ->
  playout_loop fuel tfuel pn im cfg draws [] 0 0 <> Raised.
Proof. intros Hcfg. by apply playout_loop_not_raised. Qed.

Lemma playout_no_error_witness :
  playout_loop 4 10 line_net m_P1 (unreachable_cfg 3) zero_draws [] 0 0
  <> Raised.
Proof.
  apply (playout_no_error 4 10 line_net m_P1 (unreachable_cfg 3) zero_draws).
  right. discriminate.
Defined.

Section Starved.

Variables (draws : nat -> nat) (clock : nat -> Z).

Lemma starved_iteration (g g1 : Generator) (w w1 : World) (e : option Event) :
  (forall t, t ∈ transitions (net g) ->
             all_resources_available t (store w) = false) ->
  next_iteration draws clock g w = Done (e, g1, w1) ->
  e = None /\ config g1 = config g /\ store w1 = store w.
Proof.
  intros Hblocked. unfold next_iteration.
  destruct (if _should_start_new_trace g then _ else _)
    as [[[again g0] w0]| |] eqn:Hpre; simpl; try discriminate.
  apply restart_inv in Hpre as (Hc & _ & Hst & _).
  assert (net g0 = net g) as Hnet by (by injection Hc).
  destruct again; [by intros [= <- <- <-]|].
  destruct (_handle_enabled_transition g0) as [|t0 ts] eqn:Hen.
  { intros [= <- <- <-]. by repeat split. }
  destruct (fire_transition_enabled g0 (draws (rng w0)) t0 ts Hen)
    as (x & Hx & Hok).
  rewrite Hx. simpl. destruct x as [t|]; simpl.
  - destruct Hok as [Hin _]. rewrite Hnet in Hin.
    rewrite Hst, (Hblocked t Hin). simpl. by intros [= <- <- <-].
  - intros [= <- <- <-]. by repeat split.
Qed.

Lemma starved_next (fuel : nat) :
  forall (g : Generator) (w : World),
    (forall t, t ∈ transitions (net g) ->
               all_resources_available t (store w) = false) ->
    forall r, next fuel draws clock g w <> Done r.
Proof.
  induction fuel as [|fuel IH]; intros g w Hblocked r; [discriminate|].
  simpl.
  destruct (next_iteration draws clock g w) as [[[e g1] w1]| |] eqn:Hit;
    simpl; try discriminate.
  apply (starved_iteration _ _ _ _ _ Hblocked) in Hit as (-> & Hc & Hst).
  apply IH. assert (net g1 = net g) as -> by (by injection Hc).
  by rewrite Hst.
Qed.

End Starved.


